(** * NSHA: integrity scanner, replacement planner and history rewrite engine

    A shallow embedding of [pkg/git/types.go], [pkg/git/fsck.go],
    [pkg/git/replace.go] and [pkg/git/filter.go], with the properties of the
    repair cycle stated and proved over it.

    Conventions of the embedding.
    - A [plumbing.Hash] is carried in its 40-character hexadecimal rendering
      (what [Hash.String()] returns), so [String()] is the identity and
      [plumbing.NewHash] is the decode-and-render normalisation of go-git.
    - The object store and the reference store are finite maps, as in go-git's
      storer ([map[plumbing.Hash]EncodedObject], [map[ReferenceName]*Reference]).
      Storing an object is content addressed: the key is [hashObject] of the
      object.  SHA-1 itself is not modelled; it is a member of the [Hasher]
      class.
    - A reference is one entry of the reference store, whether git keeps it
      as a loose file or in [packed-refs]; writing the file of a reference
      sets the entry and removing the file deletes it.
    - What the external [git] commands print is an input of the functions
      that parse it.
    - The commands print progress messages; printing is not modelled, and
      neither are failures of the storage layer (disk full, permissions). *)

From Stdlib Require Import Strings.String Strings.Ascii NArith.
From stdpp Require Import base strings list gmap fin_maps sets.

Local Open Scope string_scope.

(** ** Go's [strings] package, on byte strings *)

Module Strings.

(** [strings.HasPrefix(s, p)] *)
Definition HasPrefix (s p : string) : bool := String.prefix p s.

(** [strings.Contains(s, sub)]: [sub] occurs at some offset of [s]. *)
Fixpoint Contains (s sub : string) : bool :=
  String.prefix sub s ||
  match s with
  | EmptyString => false
  | String _ r => Contains r sub
  end.

(** [unicode.IsSpace] on the ASCII range: tab, newline, vertical tab, form
    feed, carriage return and space. *)
Definition isSpace (c : ascii) : bool :=
  let n := N_of_ascii c in
  ((9 <=? n) && (n <=? 13))%N || (n =? 32)%N.

Fixpoint TrimLeft (s : string) : string :=
  match s with
  | String c r => if isSpace c then TrimLeft r else s
  | EmptyString => EmptyString
  end.

Fixpoint TrimRight (s : string) : string :=
  match s with
  | EmptyString => EmptyString
  | String c r =>
      match TrimRight r with
      | EmptyString => if isSpace c then EmptyString else String c EmptyString
      | r' => String c r'
      end
  end.

(** [strings.TrimSpace] *)
Definition TrimSpace (s : string) : string := TrimRight (TrimLeft s).

(** [strings.Split(s, sep)] for a one-byte separator: always at least one
    field, empty fields kept. *)
Fixpoint Split (s : string) (sep : ascii) : list string :=
  match s with
  | EmptyString => [EmptyString]
  | String c r =>
      if Ascii.eqb c sep then EmptyString :: Split r sep
      else match Split r sep with
           | f :: fs => String c f :: fs
           | [] => [String c EmptyString]
           end
  end.

(** [strings.Join(parts, sep)] *)
Fixpoint Join (parts : list string) (sep : string) : string :=
  match parts with
  | [] => EmptyString
  | [p] => p
  | p :: ps => p ++ sep ++ Join ps sep
  end.

End Strings.

(** ** Hashes *)

Definition Hash := string.

Definition replicate_char (n : nat) (c : ascii) : string :=
  Nat.iter n (String c) EmptyString.

(** [plumbing.ZeroHash], rendered. *)
Definition ZeroHash : Hash := replicate_char 40 "0"%char.

(** [Hash.IsZero()] *)
Definition IsZero (h : Hash) : bool := String.eqb h ZeroHash.

(** [EmptyTreeHash] of types.go, "the standard Git empty tree hash". *)
Definition EmptyTreeHash : string := "4b825dc642cb6eb9a060e54bf8d69288fbee4904".

Module Hex.

(** One hexadecimal digit, either case ([encoding/hex]'s reverse table). *)
Definition digit (c : ascii) : option N :=
  let n := N_of_ascii c in
  if ((48 <=? n) && (n <=? 57))%N then Some (n - 48)%N
  else if ((97 <=? n) && (n <=? 102))%N then Some (n - 87)%N
  else if ((65 <=? n) && (n <=? 70))%N then Some (n - 55)%N
  else None.

(** [hex.DecodeString], keeping what was decoded before the first bad
    digit or the dangling last digit, as [NewHash] does by dropping the
    error. *)
Fixpoint decode (s : string) : list N :=
  match s with
  | String a (String b r) =>
      match digit a, digit b with
      | Some x, Some y => (16 * x + y)%N :: decode r
      | _, _ => []
      end
  | _ => []
  end.

Definition render_digit (n : N) : ascii :=
  if (n <? 10)%N then ascii_of_N (n + 48) else ascii_of_N (n + 87).

Fixpoint encode (bs : list N) : string :=
  match bs with
  | [] => EmptyString
  | b :: r => String (render_digit (b / 16)) (String (render_digit (b mod 16)) (encode r))
  end.

End Hex.

(** [plumbing.NewHash(s)]: decode, copy into a zeroed 20-byte array. *)
Definition NewHash (s : string) : Hash :=
  let b := take 20 (Hex.decode s) in
  Hex.encode (b ++ replicate (20 - length b) 0%N).

(** ** Objects, references, repository *)

(** [object.Signature]; [When] is an instant, totally ordered. *)
Record Signature := mkSignature {
  Name : string;
  Email : string;
  When : Z;
}.

(** [object.Commit], the fields this package reads and writes.  The [Hash]
    field of a decoded commit is the key it was loaded under and is passed
    along where the source reads [commit.Hash]. *)
Record Commit := mkCommit {
  Author : Signature;
  Committer : Signature;
  Message : string;
  TreeHash : Hash;
  ParentHashes : list Hash;
}.

(** [object.TreeEntry] *)
Record TreeEntry := mkTreeEntry {
  EntryName : string;
  EntryMode : string;
  EntryHash : Hash;
}.

(** [object.Tree] *)
Record Tree := mkTree { Entries : list TreeEntry }.

Inductive Object :=
  | CommitObject_ (c : Commit)
  | TreeObject_ (t : Tree)
  | BlobObject_ (data : string).

Inductive ReferenceType := HashReference | SymbolicReference.

(** [plumbing.Reference]: [RefHash] is [ZeroHash] for a symbolic reference,
    [RefTarget] is empty for a hash reference. *)
Record Reference := mkReference {
  RefType : ReferenceType;
  RefName : string;
  RefHash : Hash;
  RefTarget : string;
}.

Definition NewHashReference (n : string) (h : Hash) : Reference :=
  mkReference HashReference n h "".

Definition NewSymbolicReference (n target : string) : Reference :=
  mkReference SymbolicReference n ZeroHash target.

(** [ReferenceName.IsBranch], [ReferenceName.IsTag] *)
Definition IsBranch (n : string) : bool := Strings.HasPrefix n "refs/heads/".
Definition IsTag (n : string) : bool := Strings.HasPrefix n "refs/tags/".

(** The test the rewrite engine writes out three times:
    [len(refName) > 13 && refName[:13] == "refs/replace/"]. *)
Definition isReplaceRef (n : string) : bool :=
  Nat.ltb 13 (String.length n) && String.eqb (substring 0 13 n) "refs/replace/".

Record Repository := mkRepository {
  objects : gmap string Object;
  refs : gmap string Reference;
}.

(** Content addressing of [Storer.SetEncodedObject]. *)
Class Hasher := hashObject : Object → Hash.

(** What the Go runtime leaves open and [getAllCommitsTopological] relies
    on: the iteration order of [range] over a map, and the part of
    [sort.Slice] that handles slices longer than its insertion-sort
    threshold (pattern-defeating quicksort since Go 1.19; the project asks
    for Go 1.21 or higher). *)
Class GoRuntime := {
  rangeMap : gset string → list Hash;
  rangeMap_perm : ∀ s, rangeMap s ≡ₚ elements s;
  pdqsort : (Hash → Hash → bool) → list Hash → list Hash;
}.

Section Store.
Context {hasher : Hasher}.

(** [repo.CommitObject(h)] *)
Definition CommitObject (r : Repository) (h : Hash) : option Commit :=
  match objects r !! h with
  | Some (CommitObject_ c) => Some c
  | _ => None
  end.

(** [repo.TreeObject(h)] *)
Definition TreeObject (r : Repository) (h : Hash) : option Tree :=
  match objects r !! h with
  | Some (TreeObject_ t) => Some t
  | _ => None
  end.

(** [repo.Storer.SetEncodedObject(obj)] after [Encode]. *)
Definition SetEncodedObject (r : Repository) (o : Object) : Repository * Hash :=
  (mkRepository (<[hashObject o := o]> (objects r)) (refs r), hashObject o).

(** [repo.Storer.SetReference(ref)] *)
Definition SetReference (r : Repository) (ref : Reference) : Repository :=
  mkRepository (objects r) (<[RefName ref := ref]> (refs r)).

(** [repo.Storer.RemoveReference(name)], and [os.Remove] of a loose
    reference file. *)
Definition RemoveReference (r : Repository) (n : string) : Repository :=
  mkRepository (objects r) (delete n (refs r)).

(** [repo.References()] followed by [ForEach]: every stored reference,
    [HEAD] included, in the storer's order. *)
Definition References (r : Repository) : list Reference :=
  (map_to_list (refs r)).*2.

End Store.

(** Failures the source reports as [error] values. *)
Inductive Result (A : Type) :=
  | Ok (a : A)
  | Err (msg : string).
Arguments Ok {A} a.
Arguments Err {A} msg.

(** ** filter.go: the history rewrite engine *)

Module Sort.

(** The inner loop of Go's [insertionSort_func]:
    [for j := i; j > a && data.Less(j, j-1); j-- { data.Swap(j, j-1) }].
    [rpre] is the already processed prefix, last element first; the result
    is in the same orientation. *)
Fixpoint sink {A} (less : A → A → bool) (rpre : list A) (x : A) : list A :=
  match rpre with
  | [] => [x]
  | y :: rest => if less x y then y :: sink less rest x else x :: y :: rest
  end.

(** [insertionSort_func(data, 0, len)] *)
Definition insertionSort_func {A} (less : A → A → bool) (l : list A) : list A :=
  rev (foldl (sink less) [] l).

End Sort.

Section Filter.
Context {hasher : Hasher} {runtime : GoRuntime}.

(** [sort.Slice(commits, less)] where [less(i, j)] only reads [commits[i]]
    and [commits[j]]: insertion sort up to twelve elements, [pdqsort]
    beyond. *)
Definition sort_Slice (less : Hash → Hash → bool) (l : list Hash) : list Hash :=
  if Nat.leb (length l) 12 then Sort.insertionSort_func less l else pdqsort less l.

(** [getReplaceRefs]: old hash (the tail of the reference name) to new hash. *)
Definition getReplaceRefs (r : Repository) : gmap string string :=
  foldl (λ replaceMap ref,
           let refName := RefName ref in
           if isReplaceRef refName
           then <[substring 13 (String.length refName - 13) refName := RefHash ref]> replaceMap
           else replaceMap)
        ∅ (References r).

(** [walkCommits], with the depth of the recursion bounded by [fuel];
    [None] only when the bound is hit.  The second component is the [error]
    the source returns, which every caller drops. *)
Fixpoint walkCommitsFuel (fuel : nat) (r : Repository) (hash : Hash)
    (visited : gset string) : option (gset string * option string) :=
  match fuel with
  | O => None
  | S fuel' =>
      if decide (hash ∈ visited) then Some (visited, None)
      else
        let visited := {[hash]} ∪ visited in
        match CommitObject r hash with
        | None => Some (visited, Some "object not found")
        | Some commit =>
            v ← foldl (λ acc parentHash,
                         v ← acc; fst <$> walkCommitsFuel fuel' r parentHash v)
                      (Some visited) (ParentHashes commit);
            Some (v, None)
        end
  end.

(** [walkCommits(repo, hash, visited)]: one more level than there are
    stored objects is always enough (see [walkCommits_terminates]). *)
Definition walkCommits (r : Repository) (hash : Hash) (visited : gset string)
    : gset string * option string :=
  default (visited, None) (walkCommitsFuel (S (size (objects r))) r hash visited).

(** The comparison closure handed to [sort.Slice]. *)
Definition commitLess (r : Repository) (x y : Hash) : bool :=
  match CommitObject r x, CommitObject r y with
  | Some ci, Some cj =>
      if existsb (String.eqb x) (ParentHashes cj) then true
      else if existsb (String.eqb y) (ParentHashes ci) then false
      else String.ltb x y
  | _, _ => String.ltb x y
  end.

(** The hashes the walk starts from: branches and tags, replace references
    skipped. *)
Definition startCommits (r : Repository) : list Hash :=
  omap (λ ref,
          if isReplaceRef (RefName ref) then None
          else if IsBranch (RefName ref) || IsTag (RefName ref) then Some (RefHash ref)
          else None)
       (References r).

(** The set [commitSet] after the walks from all start hashes. *)
Definition commitSet (r : Repository) : gset string :=
  foldl (λ visited startHash, fst (walkCommits r startHash visited)) ∅ (startCommits r).

(** [getAllCommitsTopological] *)
Definition getAllCommitsTopological (r : Repository) : list Hash :=
  sort_Slice (commitLess r) (rangeMap (commitSet r)).

(** The substitution of parents in [rewriteCommit]. *)
Definition newParents (commitMap : gmap string Hash) (parents : list Hash) : list Hash :=
  map (λ parentHash, default parentHash (commitMap !! parentHash)) parents.

Definition needsRewrite (commitMap : gmap string Hash) (parents : list Hash) : bool :=
  existsb (λ parentHash, bool_decide (is_Some (commitMap !! parentHash))) parents.

(** [rewriteCommit]: the hash to use for [oldHash], and the repository
    with the re-encoded commit stored when one was built. *)
Definition rewriteCommit (r : Repository) (oldHash : Hash)
    (commitMap : gmap string Hash) : Repository * Hash :=
  match commitMap !! oldHash with
  | Some newHash => (r, newHash)
  | None =>
      match CommitObject r oldHash with
      | None => (r, oldHash)
      | Some oldCommit =>
          if needsRewrite commitMap (ParentHashes oldCommit) then
            let newCommit :=
              {| Author := Author oldCommit;
                 Committer := Committer oldCommit;
                 Message := Message oldCommit;
                 TreeHash := TreeHash oldCommit;
                 ParentHashes := newParents commitMap (ParentHashes oldCommit) |} in
            SetEncodedObject r (CommitObject_ newCommit)
          else (r, oldHash)
      end
  end.

(** One iteration of the loop "Rewrite commits" of [FilterRepo]. *)
Definition rewriteStep (st : Repository * gmap string Hash) (oldHash : Hash)
    : Repository * gmap string Hash :=
  let '(r', newHash) := rewriteCommit st.1 oldHash st.2 in
  if String.eqb newHash oldHash then (r', st.2)
  else (r', <[oldHash := newHash]> st.2).

(** The reference updates [updateAllReferences] collects:
    name, old hash, new hash. *)
Definition refsToUpdate (r : Repository) (commitMap : gmap string Hash)
    : list (string * Hash * Hash) :=
  omap (λ ref,
          if isReplaceRef (RefName ref) then None
          else if negb (IsBranch (RefName ref)) && negb (IsTag (RefName ref)) then None
          else match commitMap !! RefHash ref with
               | Some newHash => Some (RefName ref, RefHash ref, newHash)
               | None => None
               end)
       (References r).

Definition applyUpdate (r : Repository) (u : string * Hash * Hash) : Repository :=
  SetReference r (NewHashReference u.1.1 u.2).

(** [updateAllReferences] *)
Definition updateAllReferences (r : Repository) (commitMap : gmap string Hash)
    : Repository :=
  foldl applyUpdate r (refsToUpdate r commitMap).

(** The direct replacements [FilterRepo] starts its commit map with. *)
Definition initialCommitMap (replaceMap : gmap string string) : gmap string Hash :=
  foldl (λ commitMap oldHash,
           <[NewHash oldHash := NewHash (default "" (replaceMap !! oldHash))]> commitMap)
        ∅ (rangeMap (dom replaceMap)).

(** [FilterRepo] *)
Definition FilterRepo (r : Repository) : Result Repository :=
  let replaceMap := getReplaceRefs r in
  if Nat.eqb (size replaceMap) 0 then Err "no replace refs found - nothing to rewrite"
  else
    let commitMap := initialCommitMap replaceMap in
    let commits := getAllCommitsTopological r in
    let '(r', commitMap') := foldl rewriteStep (r, commitMap) commits in
    Ok (updateAllReferences r' commitMap').

End Filter.

(** ** types.go *)

Inductive IssueType :=
  | IssueTypeNullSHA
  | IssueTypeMissingTree
  | IssueTypeMissingCommit
  | IssueTypeBrokenParent.

#[global] Instance IssueType_eq_dec : EqDecision IssueType.
Proof. solve_decision. Defined.

Record Issue := mkIssue {
  IssueKind : IssueType;
  IssueObject : string;
  IssueMessage : string;
  IssueCommit : string;
}.

Record BadCommit := mkBadCommit {
  BadHash : string;
  BadParentHash : string;
  BadTreeHash : string;
  BadAuthor : string;
  BadAuthorEmail : string;
  BadAuthorDate : string;
  BadCommitter : string;
  BadCommitterEmail : string;
  BadCommitterDate : string;
  BadMessage : string;
  BadIsRoot : bool;
}.

(** ** replace.go: the replacement planner *)

Section Replace.
Context {hasher : Hasher}.

Definition emptyTree : Tree := {| Entries := [] |}.

(** [CreateEmptyTree]: encode and store a tree without entries. *)
Definition CreateEmptyTree (r : Repository) : Repository * string :=
  SetEncodedObject r (TreeObject_ emptyTree).

(** [createMinimalReplacement]; [now] is what [time.Now()] returned. *)
Definition createMinimalReplacement (now : Z) (r : Repository) (badCommit : BadCommit)
    : Repository :=
  let '(r1, emptyTreeHash) :=
    match TreeObject r (NewHash EmptyTreeHash) with
    | Some _ => (r, NewHash EmptyTreeHash)
    | None => SetEncodedObject r (TreeObject_ emptyTree)
    end in
  let sig := {| Name := "NSHA Tool"; Email := "nsha@fix.local"; When := now |} in
  let newCommit :=
    {| Author := sig; Committer := sig;
       Message := BadMessage badCommit;
       TreeHash := emptyTreeHash;
       ParentHashes :=
         if negb (String.eqb (BadParentHash badCommit) "")
         then [NewHash (BadParentHash badCommit)] else [] |} in
  let '(r2, newHash) := SetEncodedObject r1 (CommitObject_ newCommit) in
  SetReference r2 (NewHashReference ("refs/replace/" ++ BadHash badCommit) newHash).

(** [ReplaceCommit] *)
Definition ReplaceCommit (now : Z) (r : Repository) (badCommit : BadCommit)
    : Repository :=
  match CommitObject r (NewHash (BadHash badCommit)) with
  | None => createMinimalReplacement now r badCommit
  | Some oldCommit =>
      let '(r1, emptyTreeHash) :=
        match TreeObject r (NewHash EmptyTreeHash) with
        | Some _ => (r, NewHash EmptyTreeHash)
        | None =>
            let '(r1, emptyTreeStr) := CreateEmptyTree r in
            (r1, NewHash emptyTreeStr)
        end in
      let parents :=
        if negb (String.eqb (BadParentHash badCommit) "")
           && negb (String.eqb (BadParentHash badCommit)
                               "0000000000000000000000000000000000000000")
        then
          let parentHash := NewHash (BadParentHash badCommit) in
          match CommitObject r1 parentHash with
          | Some _ => [parentHash]
          | None => []
          end
        else [] in
      let newCommit :=
        {| Author := Author oldCommit;
           Committer := Committer oldCommit;
           Message := Message oldCommit;
           TreeHash := emptyTreeHash;
           ParentHashes := parents |} in
      let '(r2, newHash) := SetEncodedObject r1 (CommitObject_ newCommit) in
      SetReference r2 (NewHashReference ("refs/replace/" ++ BadHash badCommit) newHash)
  end.

End Replace.

(** ** fsck.go: the integrity scanner and the reference and tree fixes *)

Definition nullSHA : string := "0000000000000000000000000000000000000000".

(** What [RunFsck] appends for one trimmed, non-empty line printed by
    [git fsck --full]. *)
Definition parseFsckLine (line : string) : list Issue :=
  if Strings.Contains line "hash-path mismatch" then
    match Strings.Split line ":" with
    | _ :: part1 :: _ =>
        let hash := hd "" (Strings.Split (Strings.TrimSpace part1) " ") in
        if Strings.Contains line "objects/00/0000000000000000000000000000000000000"
        then [mkIssue IssueTypeNullSHA hash
                "Object stored at null SHA path (hash-path mismatch)" ""]
        else []
    | _ => []
    end
  else if Strings.Contains line "null sha1" || Strings.Contains line "null SHA" then
    [mkIssue IssueTypeNullSHA "" line ""]
  else if Strings.Contains line "missing" then
    [mkIssue IssueTypeMissingCommit "" line ""]
  else [].

(** The first loop of [RunFsck], over the output of the external check. *)
Definition parseFsckOutput (output : string) : list Issue :=
  if Nat.ltb 0 (String.length output) then
    flat_map (λ line,
                let line := Strings.TrimSpace line in
                if String.eqb line "" then [] else parseFsckLine line)
             (Strings.Split output "010"%char)
  else [].

(** The body of the [refs.ForEach] callback of [RunFsck]. *)
Definition checkRef (r : Repository) (ref : Reference) : list Issue :=
  match RefType ref with
  | SymbolicReference => []
  | HashReference =>
      if IsZero (RefHash ref) || String.eqb (RefHash ref) nullSHA then
        [mkIssue IssueTypeNullSHA (RefName ref) "Reference has null SHA" ""]
      else
        match CommitObject r (RefHash ref) with
        | None =>
            [mkIssue IssueTypeMissingCommit (RefHash ref)
               "Cannot read commit: object not found" ""]
        | Some commit =>
            (match TreeObject r (TreeHash commit) with
             | Some _ => []
             | None => [mkIssue IssueTypeMissingTree (TreeHash commit)
                          "Commit references missing tree" (RefHash ref)]
             end)
            ++ flat_map (λ parentHash,
                           if IsZero parentHash || String.eqb parentHash nullSHA
                           then [mkIssue IssueTypeBrokenParent (RefHash ref)
                                   "Commit has null parent SHA" ""]
                           else [])
                        (ParentHashes commit)
        end
  end.

(** [RunFsck]; [output] is what [git fsck --full] printed. *)
Definition RunFsck (output : string) (r : Repository) : list Issue :=
  parseFsckOutput output ++ flat_map (checkRef r) (References r).

(** [storer.ResolveReference]'s loop, [n] symbolic hops left
    (go-git stops after [MaxResolveRecursion = 1024]). *)
Fixpoint resolveReference (n : nat) (r : Repository) (ref : Reference)
    : option Reference :=
  match RefType ref with
  | HashReference => Some ref
  | SymbolicReference =>
      match n with
      | O => None
      | S n' =>
          match refs r !! RefTarget ref with
          | Some t => resolveReference n' r t
          | None => None
          end
      end
  end.

(** [repo.Reference(name, true)] *)
Definition ResolvedReference (r : Repository) (name : string) : option Reference :=
  match refs r !! name with
  | Some ref => resolveReference 1025 r ref
  | None => None
  end.

(** [findValidReference]: a branch name whose reference is not the null
    hash; [None] is the error "no valid branch found". *)
Definition findValidReference (r : Repository) : option string :=
  let commonBranches := ["refs/heads/main"; "refs/heads/master"; "refs/heads/develop"] in
  match
    List.find (λ branchName,
                 match ResolvedReference r branchName with
                 | Some ref => negb (String.eqb (RefHash ref) nullSHA)
                 | None => false
                 end) commonBranches
  with
  | Some branchName => Some branchName
  | None =>
      match
        List.find (λ ref, IsBranch (RefName ref) && negb (String.eqb (RefHash ref) nullSHA))
                  (References r)
      with
      | Some ref => if String.eqb (RefName ref) "" then None else Some (RefName ref)
      | None => None
      end
  end.

(** The callback of [findMostRecentValidCommit]: a branch that is not the
    null hash and whose commit loads takes over when nothing was found yet
    or when its committer time is later. *)
Definition moreRecent (r : Repository) (mostRecentCommit : option (Hash * Commit))
    (ref : Reference) : option (Hash * Commit) :=
  if IsBranch (RefName ref) && negb (String.eqb (RefHash ref) nullSHA) then
    match CommitObject r (RefHash ref) with
    | Some commit =>
        match mostRecentCommit with
        | None => Some (RefHash ref, commit)
        | Some (_, best) =>
            if (When (Committer best) <? When (Committer commit))%Z
            then Some (RefHash ref, commit) else mostRecentCommit
        end
    | None => mostRecentCommit
    end
  else mostRecentCommit.

(** [findMostRecentValidCommit]: the hash of the branch tip with the latest
    committer time, the first one met on ties; [None] is the error
    "no valid commit found". *)
Definition findMostRecentValidCommit (r : Repository) : option string :=
  fst <$> foldl (moreRecent r) None (References r).


(** The references [FixMissingCommits] collects: those whose hash does not
    load as a commit. *)
Definition refsToFix (r : Repository) : list string :=
  omap (λ ref, match CommitObject r (RefHash ref) with
               | Some _ => None
               | None => Some (RefName ref)
               end)
       (References r).

(** A usable answer of one of the two finders: no error and not empty. *)
Definition usable (found : option string) : option string :=
  match found with
  | Some s => if String.eqb s "" then None else Some s
  | None => None
  end.

(** One iteration of the loop "Fix each reference" of [FixMissingCommits],
    outside dry-run mode: the repository and the increment of [fixedCount].
    Writing [.git/HEAD] or [.git/<refName>] sets the reference, [os.Remove]
    deletes it. *)
Definition fixReference (r : Repository) (refName : string) : Repository * nat :=
  if String.eqb refName "HEAD" then
    match usable (findValidReference r) with
    | Some validRef => (SetReference r (NewSymbolicReference "HEAD" validRef), 1)
    | None =>
        match usable (findMostRecentValidCommit r) with
        | Some validCommit => (SetReference r (NewHashReference "HEAD" validCommit), 1)
        | None => (r, 0)
        end
    end
  else
    match usable (findMostRecentValidCommit r) with
    | Some validCommit => (SetReference r (NewHashReference refName validCommit), 1)
    | None => (RemoveReference r refName, 1)
    end.

(** The body of that loop: in dry-run mode only [fixedCount] moves. *)
Definition fixStep (dryRun : bool) (st : Repository * nat) (refName : string)
    : Repository * nat :=
  if dryRun then (st.1, S st.2)
  else let '(r', n) := fixReference st.1 refName in (r', st.2 + n).

(** [FixMissingCommits] *)
Definition FixMissingCommits (r : Repository) (dryRun : bool) : Repository * nat :=
  foldl (fixStep dryRun) (r, 0) (refsToFix r).

(** *** The tree fix of [FixTreeCorruptionWithGitCommands] *)

(** The listing [git cat-file -p <tree>] and [git ls-tree] print, as the
    source quotes it: ["100644 blob <hash>\t<name>"], one entry per line. *)
Definition entryKind (mode : string) : string :=
  if String.eqb mode "040000" then "tree"
  else if String.eqb mode "160000" then "commit"
  else "blob".

Definition lsTreeLine (e : TreeEntry) : string :=
  EntryMode e ++ " " ++ entryKind (EntryMode e) ++ " " ++ EntryHash e
    ++ String "009"%char (EntryName e).

Definition lsTreeOutput (t : Tree) : string :=
  String.concat "" (map (λ e, lsTreeLine e ++ String "010"%char "") (Entries t)).

(** The loop "Parse tree entries and filter out null SHA":
    [validEntries] and [nullEntriesFound]. *)
Definition scanTreeLines (treeOutput : string) : list string * nat :=
  foldl (λ (acc : list string * nat) line,
           let line := Strings.TrimSpace line in
           if String.eqb line "" then acc
           else if Strings.Contains line nullSHA then (acc.1, S acc.2)
           else ((acc.1 ++ [line])%list, acc.2))
        ([], 0) (Strings.Split treeOutput "010"%char).

(** How the loop body ends for one corrupted tree. *)
Inductive TreeRepair :=
  | NoNullEntries                       (* "No null entries found in tree" *)
  | MktreeFailed                        (* "Could not create new tree" *)
  | NewTree (newTreeHash : string).     (* goes on to updateCommitsWithNewTree *)

(** The value of [newTreeHash] the loop body of
    [FixTreeCorruptionWithGitCommands] computes for one tree (outside
    dry-run mode).  [catFile] and [lsTree] are the outputs of
    [git cat-file -p] and [git ls-tree --full-tree] on the tree ([None]
    when the command fails); [mktree] is [git mktree] on its standard
    input. *)
Definition newTreeHashFor (catFile lsTree : option string)
    (mktree : string → option string) : TreeRepair :=
  let treeOutput :=
    match catFile with
    | Some out => Some out
    | None => lsTree
    end in
  match treeOutput with
  | None => NewTree EmptyTreeHash
  | Some treeOutput =>
      let '(validEntries, nullEntriesFound) := scanTreeLines treeOutput in
      if Nat.eqb nullEntriesFound 0 then NoNullEntries
      else if Nat.eqb (length validEntries) 0 then NewTree EmptyTreeHash
      else match mktree (Strings.Join validEntries (String "010"%char "")
                           ++ String "010"%char "") with
           | Some newTreeOutput => NewTree (Strings.TrimSpace newTreeOutput)
           | None => MktreeFailed
           end
  end.

(** ** Well-formedness of the reference store *)

(** go-git's storer files every reference under its own name. *)
Definition refs_keyed (r : Repository) : Prop :=
  ∀ n ref, refs r !! n = Some ref → RefName ref = n.

#[global] Instance refs_keyed_dec r : Decision (refs_keyed r).
Proof.
  refine (cast_if (decide (map_Forall (λ n ref, RefName ref = n) (refs r))));
    unfold refs_keyed, map_Forall in *; auto.
Defined.

(** ** The measure of the commit walk *)

(** What is left to visit: stored objects that are not in the visited set. *)
Definition unvisited (r : Repository) (visited : gset string) : nat :=
  size (dom (objects r) ∖ visited).

(** The loop "Walk parents" of [walkCommits], as it stands in
    [walkCommitsFuel]. *)
Definition walkParents (fuel : nat) (r : Repository) (acc : option (gset string))
    (parents : list Hash) : option (gset string) :=
  foldl (λ acc parentHash, v ← acc; fst <$> walkCommitsFuel fuel r parentHash v)
        acc parents.

(** ** Topological order *)

(** [l] lists parents before children: whenever a commit of [l] has a parent
    that is also in [l], the parent stands at a strictly smaller index. *)
Definition topological (r : Repository) (l : list Hash) : Prop :=
  ∀ i j h c p,
    l !! i = Some h → CommitObject r h = Some c → p ∈ ParentHashes c →
    l !! j = Some p → (j < i)%nat.

(** ** What the scanner looks at *)

(** The commit a reference points at directly, when [RunFsck] gets as far as
    loading it: a hash reference, not the null hash, whose hash loads as a
    commit. *)
Definition checkedCommit (r : Repository) (ref : Reference) : option Commit :=
  match RefType ref with
  | SymbolicReference => None
  | HashReference =>
      if String.eqb (RefHash ref) ZeroHash then None
      else CommitObject r (RefHash ref)
  end.

(** The reference points directly at a commit whose tree does not load. *)
Definition missingTreeAt (r : Repository) (ref : Reference) : bool :=
  match checkedCommit r ref with
  | Some commit => bool_decide (TreeObject r (TreeHash commit) = None)
  | None => false
  end.

Definition hasKind (k : IssueType) (i : Issue) : bool :=
  bool_decide (IssueKind i = k).

(** ** Concrete repositories used by the examples below *)

Module Fixtures.

Definition h40 (c : ascii) : Hash := replicate_char 40 c.

Definition alice : Signature := mkSignature "Alice" "alice@example.org" 1700000000.

(** A content hash for the examples: a commit is filed under forty copies
    of the first character of its message, the empty tree under
    [EmptyTreeHash]. *)
Definition fixtureHash : Hasher := λ o,
  match o with
  | CommitObject_ c =>
      match Message c with
      | String ch _ => h40 ch
      | EmptyString => h40 "f"
      end
  | TreeObject_ t =>
      match Entries t with
      | [] => EmptyTreeHash
      | _ :: _ => h40 "e"
      end
  | BlobObject_ _ => h40 "b"
  end.

Definition commit (msg : string) (tree : Hash) (parents : list Hash) : Commit :=
  mkCommit alice alice msg tree parents.

(** A root commit [a] and its child [c]; the overlay names [a] as its own
    replacement. *)
Definition rootA : Commit := commit "a root" EmptyTreeHash [].
Definition childC : Commit := commit "c child" EmptyTreeHash [h40 "a"].

Definition selfMapped : Repository :=
  mkRepository
    {[ h40 "a" := CommitObject_ rootA;
       h40 "c" := CommitObject_ childC;
       EmptyTreeHash := TreeObject_ (mkTree []) ]}
    {[ "refs/heads/main" := NewHashReference "refs/heads/main" (h40 "c") ]}.

Definition selfOverlay : gmap string Hash := {[ h40 "a" := h40 "a" ]}.

(** The same two commits with [a] replaced by a commit [d]. *)
Definition replacedOverlay : gmap string Hash := {[ h40 "a" := h40 "d" ]}.

(** A small history [a] <- [c] with a branch, a tag, a replace reference
    and a symbolic [HEAD]. *)
Definition tagged : Repository :=
  mkRepository
    {[ h40 "a" := CommitObject_ rootA;
       h40 "c" := CommitObject_ childC;
       h40 "d" := CommitObject_ (commit "d replacement of a" EmptyTreeHash []);
       EmptyTreeHash := TreeObject_ (mkTree []) ]}
    {[ "HEAD" := NewSymbolicReference "HEAD" "refs/heads/main";
       "refs/heads/main" := NewHashReference "refs/heads/main" (h40 "c");
       "refs/heads/old" := NewHashReference "refs/heads/old" (h40 "a");
       "refs/tags/v1" := NewHashReference "refs/tags/v1" (h40 "a");
       "refs/replace/" ++ h40 "a" := NewHashReference ("refs/replace/" ++ h40 "a") (h40 "d") ]}.

Definition taggedOverlay : gmap string Hash :=
  {[ h40 "a" := h40 "d"; h40 "c" := h40 "e" ]}.


(** An iteration order for [range] over a set: the members of the set that
    occur in [pri] first, in the order of [pri], then the others. *)
Definition rangeFirst (pri : list Hash) (s : gset string) : list Hash :=
  filter (λ h, h ∈ s) (remove_dups pri) ++ filter (λ h, h ∉ pri) (elements s).

Definition runtimeFirst (pri : list Hash) : GoRuntime.
Proof.
  refine {| rangeMap := rangeFirst pri; pdqsort := λ _ l, l |}.
  intros s. unfold rangeFirst. apply NoDup_Permutation.
  - apply NoDup_app. split; [apply NoDup_filter, NoDup_remove_dups|].
    split; [|apply NoDup_filter, NoDup_elements].
    intros x Hx Hx'. apply list_elem_of_filter in Hx as [_ Hx].
    apply list_elem_of_filter in Hx' as [Hx' _].
    apply Hx'. by apply elem_of_remove_dups.
  - apply NoDup_elements.
  - intros x. rewrite elem_of_app, !list_elem_of_filter, elem_of_remove_dups,
      elem_of_elements.
    destruct (decide (x ∈ pri)); tauto.
Defined.

(** A linear history: root [c...c], its child [b...b], and the grandchild
    [a...a] the branch points at.  The grandchild has the smallest hash. *)
Definition chain : Repository :=
  mkRepository
    {[ h40 "c" := CommitObject_ (commit "c root" EmptyTreeHash []);
       h40 "b" := CommitObject_ (commit "b child" EmptyTreeHash [h40 "c"]);
       h40 "a" := CommitObject_ (commit "a grandchild" EmptyTreeHash [h40 "b"]);
       EmptyTreeHash := TreeObject_ (mkTree []) ]}
    {[ "refs/heads/main" := NewHashReference "refs/heads/main" (h40 "a") ]}.

(** A branch on a sound commit [b] whose parent [a] has a tree that is not
    in the store and a null parent. *)
Definition deep : Repository :=
  mkRepository
    {[ h40 "b" := CommitObject_ (commit "b tip" EmptyTreeHash [h40 "a"]);
       h40 "a" := CommitObject_ (commit "a broken" (h40 "e") [ZeroHash]);
       EmptyTreeHash := TreeObject_ (mkTree []) ]}
    {[ "HEAD" := NewSymbolicReference "HEAD" "refs/heads/main";
       "refs/heads/main" := NewHashReference "refs/heads/main" (h40 "b") ]}.

(** Two branches on the same commit, whose tree is not in the store. *)
Definition twice : Repository :=
  mkRepository
    {[ h40 "a" := CommitObject_ (commit "a broken" (h40 "e") []) ]}
    {[ "refs/heads/main" := NewHashReference "refs/heads/main" (h40 "a");
       "refs/heads/topic" := NewHashReference "refs/heads/topic" (h40 "a") ]}.

Definition badCommit (hash parent tree msg : string) (isRoot : bool) : BadCommit :=
  mkBadCommit hash parent tree "" "" "" "" "" "" msg isRoot.

(** A store that holds the empty tree and nothing else, and a flagged commit
    that cannot be loaded from it, recorded with a null parent. *)
Definition orphan : Repository :=
  mkRepository {[ EmptyTreeHash := TreeObject_ (mkTree []) ]} ∅.

Definition lost : BadCommit := badCommit (h40 "9") nullSHA "" "lost" false.

(** The same flagged commit recorded with a parent that is not in the
    store. *)
Definition lostChild : BadCommit := badCommit (h40 "9") (h40 "8") "" "4 lost" false.

(** A commit with a sound one-entry tree and a null parent, as [FindBadCommits]
    records it (the parent field stays empty when the first parent is null). *)
Definition readme : TreeEntry := mkTreeEntry "README.md" "100644" (h40 "5").

Definition nullParent : Repository :=
  mkRepository
    {[ h40 "7" := CommitObject_ (commit "7 work" (h40 "e") [ZeroHash]);
       h40 "e" := TreeObject_ (mkTree [readme]);
       h40 "5" := BlobObject_ "hello";
       EmptyTreeHash := TreeObject_ (mkTree []) ]}
    {[ "refs/heads/main" := NewHashReference "refs/heads/main" (h40 "7") ]}.

Definition flagged : BadCommit := badCommit (h40 "7") "" (h40 "e") "7 work" false.

(** A tree with two entries, in git's name order: a file whose name is forty
    zeros, with a sound hash, and a file with the null hash. *)
Definition zerosNamed : TreeEntry := mkTreeEntry nullSHA "100644" (h40 "5").
Definition nullEntry : TreeEntry := mkTreeEntry "a.txt" "100644" ZeroHash.
Definition corrupted : Tree := mkTree [zerosNamed; nullEntry].

(** A tree with an ordinary file and a file with the null hash. *)
Definition ordinary : Tree := mkTree [readme; nullEntry].

(** A detached [HEAD] and a tag on commits that are not in the store, next
    to a sound branch. *)
Definition dangling : Repository :=
  mkRepository
    {[ h40 "a" := CommitObject_ rootA;
       EmptyTreeHash := TreeObject_ (mkTree []) ]}
    {[ "HEAD" := NewHashReference "HEAD" (h40 "9");
       "refs/heads/good" := NewHashReference "refs/heads/good" (h40 "a");
       "refs/tags/v1" := NewHashReference "refs/tags/v1" (h40 "8") ]}.

(** The same without any branch. *)
Definition hopeless : Repository :=
  mkRepository
    {[ EmptyTreeHash := TreeObject_ (mkTree []) ]}
    {[ "HEAD" := NewHashReference "HEAD" (h40 "9");
       "refs/tags/v1" := NewHashReference "refs/tags/v1" (h40 "8") ]}.

End Fixtures.

(** * The rest of the package *)

From stdpp Require Import pretty.
Local Open Scope string_scope.

(** ** Reachability in the commit graph *)

(** [x] can be reached from [h] by following parent links of commits that
    load. *)
Inductive reachable (r : Repository) : Hash → Hash → Prop :=
  | reach_refl h : reachable r h h
  | reach_step h c p x :
      CommitObject r h = Some c → p ∈ ParentHashes c →
      reachable r p x → reachable r h x.

(** Every parent of [x], when [x] loads as a commit, is in [V]. *)
Definition closedIn (r : Repository) (V : gset string) (x : Hash) : Prop :=
  ∀ c p, CommitObject r x = Some c → p ∈ ParentHashes c → p ∈ V.

(** The tail of a replace reference name, [refName[13:]]. *)
Definition replaceKey (refName : string) : string :=
  substring 13 (String.length refName - 13) refName.

(** ** Run-time panics *)

(** Go's slice expression [s[:n]] on a string: it panics ("slice bounds out
    of range") when [n] exceeds the length.  A function of this package that
    can panic returns an [option], [None] being the panic. *)
Definition sliceTo (s : string) (n : nat) : option string :=
  if Nat.leb n (String.length s) then Some (substring 0 n s) else None.

(** ** replace.go: [CleanupReplaceRefs] *)

(** The callback of [CleanupReplaceRefs]: it slices the first thirteen
    bytes off every reference name, without testing the length. *)
Definition collectReplaceRef (acc : option (list string)) (ref : Reference)
    : option (list string) :=
  replaceRefs ← acc;
  head ← sliceTo (RefName ref) 13;
  Some (if String.eqb head "refs/replace/"
        then (replaceRefs ++ [RefName ref])%list else replaceRefs).

(** [CleanupReplaceRefs]; [None] when it panics. *)
Definition CleanupReplaceRefs (r : Repository) : option Repository :=
  replaceRefs ← foldl collectReplaceRef (Some []) (References r);
  Some (foldl RemoveReference r replaceRefs).

(** ** types.go: [BadCommit.String] *)

(** [BadCommit.String]: both hashes are cut to eight bytes, without a test
    of their length. *)
Definition BadCommit_String (bc : BadCommit) : option string :=
  if BadIsRoot bc then
    hash ← sliceTo (BadHash bc) 8;
    Some ("Commit " ++ hash ++ " (root commit)")
  else
    hash ← sliceTo (BadHash bc) 8;
    parent ← sliceTo (BadParentHash bc) 8;
    Some ("Commit " ++ hash ++ " (parent: " ++ parent ++ ")").

(** ** fsck.go: [FindBadCommits] *)

(** [time.Time.Format] with the layout ["2006-01-02 15:04:05 -0700"]. *)
Class TimeFormat := Format : Z → string.

Section FindBadCommits.
Context {runtime : GoRuntime} {layout : TimeFormat}.

(** The issue types [FindBadCommits] handles. *)
Definition handled (issue : Issue) : bool :=
  bool_decide (IssueKind issue = IssueTypeMissingTree)
  || bool_decide (IssueKind issue = IssueTypeBrokenParent)
  || bool_decide (IssueKind issue = IssueTypeNullSHA).

(** [commitHash]: the issue's [Commit], its [Object] when that is empty. *)
Definition issueCommitHash (issue : Issue) : string :=
  if String.eqb (IssueCommit issue) "" then IssueObject issue else IssueCommit issue.

(** The record built for a commit that loads. *)
Definition newBadCommit (commitHash : string) (commit : Commit) : BadCommit :=
  let named := negb (String.eqb (Name (Author commit)) "") in
  let cnamed := negb (String.eqb (Name (Committer commit)) "") in
  {| BadHash := commitHash;
     BadParentHash :=
       match ParentHashes commit with
       | p :: _ => if negb (IsZero p) then p else ""
       | [] => ""
       end;
     BadTreeHash := TreeHash commit;
     BadAuthor := if named then Name (Author commit) else "";
     BadAuthorEmail := if named then Email (Author commit) else "";
     BadAuthorDate := if named then Format (When (Author commit)) else "";
     BadCommitter := if cnamed then Name (Committer commit) else "";
     BadCommitterEmail := if cnamed then Email (Committer commit) else "";
     BadCommitterDate := if cnamed then Format (When (Committer commit)) else "";
     BadMessage := Message commit;
     BadIsRoot := bool_decide (length (ParentHashes commit) = 0) |}.

(** The body of the loop over the issues. *)
Definition collectBadCommit (r : Repository) (badCommitsMap : gmap string BadCommit)
    (issue : Issue) : gmap string BadCommit :=
  if handled issue then
    let commitHash := issueCommitHash issue in
    if String.eqb commitHash "" || String.eqb commitHash nullSHA then badCommitsMap
    else
      match badCommitsMap !! commitHash with
      | Some _ => badCommitsMap
      | None =>
          match CommitObject r (NewHash commitHash) with
          | None => badCommitsMap
          | Some commit => <[commitHash := newBadCommit commitHash commit]> badCommitsMap
          end
      end
  else badCommitsMap.

Definition badCommitsMap (output : string) (r : Repository) : gmap string BadCommit :=
  foldl (collectBadCommit r) ∅ (RunFsck output r).

(** [FindBadCommits]; [output] is what [git fsck --full] printed.  The
    result is listed in the order of [range] over the map. *)
Definition FindBadCommits (output : string) (r : Repository) : list BadCommit :=
  let badCommitsMap := badCommitsMap output r in
  omap (λ commitHash, badCommitsMap !! commitHash) (rangeMap (dom badCommitsMap)).

End FindBadCommits.

(** ** fsck.go: [FixNullSHATags] *)





(** ** More of Go's [strings] package *)

Module Strings2.

(** [strings.Fields(s)]: the maximal runs of bytes that are not white
    space, on the ASCII range as [Strings.isSpace]. *)
Fixpoint Fields (s : string) : list string :=
  match s with
  | EmptyString => []
  | String c r =>
      if Strings.isSpace c then Fields r
      else
        match r with
        | EmptyString => [String c EmptyString]
        | String c' _ =>
            if Strings.isSpace c' then String c EmptyString :: Fields r
            else match Fields r with
                 | f :: fs => String c f :: fs
                 | [] => [String c EmptyString]
                 end
        end
  end.

(** The byte [c] occurs in [s]. *)
Fixpoint hasByte (c : ascii) (s : string) : bool :=
  match s with
  | EmptyString => false
  | String c' r => Ascii.eqb c' c || hasByte c r
  end.

End Strings2.

(** ** fsck.go: [CleanupPackedRefs] *)

(** The state of the loop over the lines of [packed-refs]. *)
Record PackedScan := mkPackedScan {
  newLines : list string;
  seenRefs : gset string;
  modified : bool;
}.

(** The test both loops over [packed-refs] make before they split a line
    into fields: not empty, not a comment, not a peeled line. *)
Definition isEntryLine (trimmedLine : string) : bool :=
  negb (String.eqb trimmedLine "")
  && negb (Strings.HasPrefix trimmedLine "#")
  && negb (Strings.HasPrefix trimmedLine "^").

(** The hash and the reference name of a line that passes the test and has
    two fields or more. *)
Definition packedEntry (line : string) : option (string * string) :=
  let trimmedLine := Strings.TrimSpace line in
  if isEntryLine trimmedLine then
    match Strings2.Fields trimmedLine with
    | sha :: refName :: _ => Some (sha, refName)
    | _ => None
    end
  else None.

Definition nullLike (sha : string) : bool :=
  Strings.HasPrefix sha "000000000000000000000000000000000000000".

(** The body of the loop of [CleanupPackedRefs]. *)
Definition cleanupLine (st : PackedScan) (line : string) : PackedScan :=
  let trimmedLine := Strings.TrimSpace line in
  let keep := mkPackedScan (newLines st ++ [line]) (seenRefs st) (modified st) in
  if isEntryLine trimmedLine then
    match Strings2.Fields trimmedLine with
    | sha :: refName :: _ =>
        if nullLike sha then mkPackedScan (newLines st) (seenRefs st) true
        else if bool_decide (refName ∈ seenRefs st)
        then mkPackedScan (newLines st) (seenRefs st) true
        else mkPackedScan (newLines st ++ [line]) ({[refName]} ∪ seenRefs st) (modified st)
    | _ => keep
    end
  else keep.

Definition cleanupScan (content : string) : PackedScan :=
  foldl cleanupLine (mkPackedScan [] ∅ false) (Strings.Split content "010"%char).

(** [CleanupPackedRefs] on the content of [packed-refs]: what it writes
    back, [None] when it does not write. *)
Definition CleanupPackedRefs (content : string) : option string :=
  let st := cleanupScan content in
  if modified st then Some (Strings.Join (newLines st) (String "010"%char ""))
  else None.

(** The lines that loop keeps out of [lines] when the names in [seen] have
    been met before; the loop is compared with it in the proofs. *)
Fixpoint keptLines (seen : gset string) (lines : list string) : list string :=
  match lines with
  | [] => []
  | line :: rest =>
      match packedEntry line with
      | Some (sha, refName) =>
          if nullLike sha || bool_decide (refName ∈ seen) then keptLines seen rest
          else line :: keptLines ({[refName]} ∪ seen) rest
      | None => line :: keptLines seen rest
      end
  end.


(** ** fsck.go: the pass of [FixNullSHAReferences] over [packed-refs] *)

(** The body of the loop "Check and fix packed-refs": the scan state and
    [fixedCount]. *)
Definition fixPackedLine (dryRun : bool) (acc : PackedScan * nat) (line : string)
    : PackedScan * nat :=
  let '(st, fixedCount) := acc in
  let trimmedLine := Strings.TrimSpace line in
  if dryRun && String.eqb trimmedLine "" then acc
  else if Strings.Contains line nullSHA then
    (mkPackedScan (newLines st) (seenRefs st) true, S fixedCount)
  else
    let keep (seen : gset string) :=
      (mkPackedScan (if dryRun then newLines st else newLines st ++ [line])
                    seen (modified st), fixedCount) in
    if isEntryLine trimmedLine then
      match Strings2.Fields trimmedLine with
      | _ :: refName :: _ =>
          if bool_decide (refName ∈ seenRefs st)
          then (mkPackedScan (newLines st) (seenRefs st) true, fixedCount)
          else keep ({[refName]} ∪ seenRefs st)
      | _ => keep (seenRefs st)
      end
    else keep (seenRefs st).

(** That pass: what it writes back to [packed-refs], if anything, and what
    it adds to [fixedCount]. *)
Definition fixPackedRefs (dryRun : bool) (content : string) : option string * nat :=
  let '(st, fixedCount) :=
    foldl (fixPackedLine dryRun) (mkPackedScan [] ∅ false, 0)
          (Strings.Split content "010"%char) in
  (if modified st && negb dryRun
   then Some (Strings.Join (newLines st) (String "010"%char "")) else None,
   fixedCount).

(** ** fsck.go: the commit text [updateCommitsWithNewTree] writes *)

(** The loop "Parse commit data and replace tree hash" and the join after
    it: [commitData] is what [git cat-file commit] printed. *)
Definition replaceTreeLine (newTreeHash : string) (line : string) : string :=
  if Strings.HasPrefix line "tree " then "tree " ++ newTreeHash else line.

Definition newCommitData (commitData newTreeHash : string) : string :=
  Strings.Join (map (replaceTreeLine newTreeHash) (Strings.Split commitData "010"%char))
               (String "010"%char "").

(** ** types.go and fsck.go: [Issue.String] and [VerifyRepository] *)

Definition IssueType_String (t : IssueType) : string :=
  match t with
  | IssueTypeNullSHA => "null-sha"
  | IssueTypeMissingTree => "missing-tree"
  | IssueTypeMissingCommit => "missing-commit"
  | IssueTypeBrokenParent => "broken-parent"
  end.

(** [Issue.String] *)
Definition Issue_String (i : Issue) : string :=
  "[" ++ IssueType_String (IssueKind i) ++ "] " ++ IssueObject i ++ ": "
      ++ IssueMessage i.

(** [VerifyRepository]; [output] is what [git fsck --full] printed. *)
Definition VerifyRepository (output : string) (r : Repository) : Result unit :=
  let issues := RunFsck output r in
  if Nat.ltb 0 (length issues) then
    Err ("found " ++ pretty (length issues) ++ " issue(s):" ++ String "010"%char
           (Strings.Join (map Issue_String issues) (String "010"%char "")))
  else Ok tt.

(** ** dryrun.go: [AnalyzeAndPopulate] *)

Record DryRunChange := mkDryRunChange {
  ChangeType : string;
  ChangeObject : string;
  CurrentSHA : string;
  NewSHA : string;
  Action : string;
  Description : string;
}.

(** The content of [.git/HEAD] as go-git writes it: a symbolic reference as
    ["ref: <target>"], a hash reference as the hash, each with a newline;
    [None] when there is no such file. *)
Definition headFile (r : Repository) : option string :=
  ref ← refs r !! "HEAD";
  Some (match RefType ref with
        | SymbolicReference => "ref: " ++ RefTarget ref ++ String "010"%char ""
        | HashReference => RefHash ref ++ String "010"%char ""
        end).

Definition headChange (validRef : string) : DryRunChange :=
  mkDryRunChange "reference" "HEAD" nullSHA validRef "fix" ("Will point to " ++ validRef).

(** "1. Check HEAD" *)
Definition analyzeHead (r : Repository) (validRef : string) : list DryRunChange :=
  match ResolvedReference r "HEAD" with
  | None =>
      match headFile r with
      | Some content =>
          let headStr := Strings.TrimSpace content in
          if String.eqb headStr nullSHA || Strings.Contains headStr nullSHA
          then [headChange validRef] else []
      | None => []
      end
  | Some head =>
      if String.eqb (RefHash head) nullSHA then [headChange validRef] else []
  end.

(** The callback of "2. Check all references"; [None] is the panic of
    [targetSHA[:8]]. *)
Definition analyzeNullRef (validCommit : string) (acc : option (list DryRunChange))
    (ref : Reference) : option (list DryRunChange) :=
  changes ← acc;
  if String.eqb (RefHash ref) nullSHA then
    let targetSHA := validCommit in
    short ← sliceTo targetSHA 8;
    Some (changes ++
          [mkDryRunChange (if IsTag (RefName ref) then "tag" else "reference")
             (RefName ref) nullSHA targetSHA "fix"
             ("Will point to commit " ++ short)])%list
  else Some changes.

(** The callback of "3. Check for missing commits"; [None] is the panic of
    [validCommit[:8]]. *)
Definition analyzeMissing (r : Repository) (validCommit : string)
    (acc : option (list DryRunChange)) (ref : Reference)
    : option (list DryRunChange) :=
  changes ← acc;
  match CommitObject r (RefHash ref) with
  | None =>
      if negb (IsZero (RefHash ref)) then
        short ← sliceTo validCommit 8;
        Some (changes ++
              [mkDryRunChange "missing-commit" (RefName ref) (RefHash ref)
                 validCommit "fix"
                 ("Commit not found, will point to " ++ short)])%list
      else Some changes
  | Some _ => Some changes
  end.

(** "4. Check packed-refs for null SHAs", for one line. *)
Definition analyzePackedLine (line : string) : list DryRunChange :=
  if Strings.Contains line nullSHA && negb (Strings.HasPrefix line "#") then
    match Strings2.Fields line with
    | _ :: refName :: _ =>
        [mkDryRunChange "reference" refName nullSHA
           "(will be removed from packed-refs)" "fix"
           "Will remove null SHA entry from packed-refs"]
    | _ => []
    end
  else [].

(** [AnalyzeAndPopulate] on empty details: the changes it records, [None]
    when it panics.  [packedRefs] is the content of [.git/packed-refs],
    [None] when the file cannot be read. *)
Definition AnalyzeAndPopulate (r : Repository) (packedRefs : option string)
    : option (list DryRunChange) :=
  let validCommit := default "" (findMostRecentValidCommit r) in
  let validRef := default "" (findValidReference r) in
  changes ← foldl (analyzeNullRef validCommit) (Some (analyzeHead r validRef))
                  (References r);
  changes ← foldl (analyzeMissing r validCommit) (Some changes) (References r);
  Some (changes ++
        match packedRefs with
        | Some content => flat_map analyzePackedLine (Strings.Split content "010"%char)
        | None => []
        end)%list.

(** ** fsck.go: [FixNullSHAReferences] *)

(** The test of "1. Check and fix HEAD reference": [HEAD] resolves to the
    null hash, or does not resolve and its file mentions the null hash. *)
Definition headIsNull (r : Repository) : bool :=
  match ResolvedReference r "HEAD" with
  | None =>
      match headFile r with
      | Some content =>
          let headStr := Strings.TrimSpace content in
          String.eqb headStr nullSHA || Strings.Contains headStr nullSHA
      | None => false
      end
  | Some head => String.eqb (RefHash head) nullSHA
  end.

(** That step: writing ["ref: <validRef>"] to [.git/HEAD] makes [HEAD] a
    symbolic reference. *)
Definition fixHead (dryRun : bool) (r : Repository) : Repository * nat :=
  if headIsNull r then
    if dryRun then (r, 1)
    else
      match usable (findValidReference r) with
      | Some validRef => (SetReference r (NewSymbolicReference "HEAD" validRef), 1)
      | None => (r, 0)
      end
  else (r, 0).

(** The callback of "2. Check and fix branch references"; writing the hash
    to [.git/<name>] sets the reference. *)
Definition fixNullRef (dryRun : bool) (st : Repository * nat) (ref : Reference)
    : Repository * nat :=
  if String.eqb (RefHash ref) nullSHA then
    if dryRun then (st.1, S st.2)
    else if IsBranch (RefName ref) then
      match usable (findMostRecentValidCommit st.1) with
      | Some validCommit =>
          (SetReference st.1 (NewHashReference (RefName ref) validCommit), S st.2)
      | None => st
      end
    else st
  else st.

(** [FixNullSHAReferences]: the repository, what is written back to
    [packed-refs] if anything, and [fixedCount].  [packedRefs] is the
    content of [.git/packed-refs], [None] when the file cannot be read. *)
Definition FixNullSHAReferences (r : Repository) (packedRefs : option string)
    (dryRun : bool) : Repository * option string * nat :=
  let '(r1, n1) := fixHead dryRun r in
  let '(r2, n2) := foldl (fixNullRef dryRun) (r1, n1) (References r1) in
  match packedRefs with
  | Some content =>
      let '(written, n3) := fixPackedRefs dryRun content in
      (r2, written, (n2 + n3)%nat)
  | None => (r2, None, n2)
  end.


(** ** Entries as git lists them *)

(** No byte of [s] is white space. *)
Fixpoint noSpace (s : string) : bool :=
  match s with
  | EmptyString => true
  | String c r => negb (Strings.isSpace c) && noSpace r
  end.

(** What the scan of a tree listing takes for granted: a six-byte mode and a
    forty-byte hash without white space, and a name that is not empty, has no
    newline and does not end in white space. *)
Definition listedEntry (e : TreeEntry) : Prop :=
  String.length (EntryMode e) = 6 ∧ noSpace (EntryMode e) = true
  ∧ String.length (EntryHash e) = 40 ∧ noSpace (EntryHash e) = true
  ∧ EntryName e ≠ "" ∧ Strings.TrimRight (EntryName e) = EntryName e
  ∧ Strings2.hasByte "010"%char (EntryName e) = false.

#[global] Instance listedEntry_dec e : Decision (listedEntry e).
Proof. unfold listedEntry. apply _. Defined.


(** ** Fixtures for the rest of the package *)

Module Fixtures2.

(** A repository in which every reference name has thirteen bytes or more:
    no [HEAD], no two-letter tag. *)
Definition headless : Repository :=
  mkRepository (objects Fixtures.tagged)
    {[ "refs/heads/main" := NewHashReference "refs/heads/main" (Fixtures.h40 "c");
       "refs/tags/v1.0" := NewHashReference "refs/tags/v1.0" (Fixtures.h40 "a");
       "refs/replace/" ++ Fixtures.h40 "a" :=
         NewHashReference ("refs/replace/" ++ Fixtures.h40 "a") (Fixtures.h40 "d") ]}.

(** A rendering of times for the fixtures: the epoch, whatever the time. *)
Definition fixtureLayout : TimeFormat := λ _, "1970-01-01 00:00:00 +0000".

(** The record [FindBadCommits] builds, under that rendering, for the
    commit of [Fixtures.nullParent]. *)
Definition found : BadCommit :=
  mkBadCommit (Fixtures.h40 "7") "" (Fixtures.h40 "e")
    "Alice" "alice@example.org" "1970-01-01 00:00:00 +0000"
    "Alice" "alice@example.org" "1970-01-01 00:00:00 +0000"
    "7 work" false.


(** A [packed-refs] file with a null entry and a repeated reference, and
    what is left of it. *)
Definition packed : string :=
  "# pack-refs with: peeled fully-peeled sorted" ++ String "010"%char
  ("0000000000000000000000000000000000000000 refs/heads/bad" ++ String "010"%char
  ("1111111111111111111111111111111111111111 refs/heads/main" ++ String "010"%char
  ("2222222222222222222222222222222222222222 refs/heads/main" ++ String "010"%char
  ""))).

Definition repacked : string :=
  "# pack-refs with: peeled fully-peeled sorted" ++ String "010"%char
  ("1111111111111111111111111111111111111111 refs/heads/main" ++ String "010"%char
  "").

(** The text of a commit whose message has a line that starts with
    ["tree "]. *)
Definition commitText : string :=
  "tree eeeeeeeeeeeeeeeeeeeeeeeeeeeeeeeeeeeeeeee" ++ String "010"%char
  ("author Alice <alice@example.org> 1700000000 +0000" ++ String "010"%char
  ("committer Alice <alice@example.org> 1700000000 +0000" ++ String "010"%char
  (String "010"%char
  ("tree shaking for the bundler" ++ String "010"%char "")))).



End Fixtures2.

(** * Properties *)

(** ** The library functions, on examples *)

Example Split_fields : Strings.Split "error: abc: hash-path mismatch" ":"
                       = ["error"; " abc"; " hash-path mismatch"].
Proof. reflexivity. Qed.

Example Split_empty : Strings.Split "" ":" = [""].
Proof. reflexivity. Qed.

Example Split_trailing_newline :
  Strings.Split (String "a" (String "010" "")) "010" = ["a"; ""].
Proof. reflexivity. Qed.

Example TrimSpace_both_ends :
  Strings.TrimSpace (String "009" " missing tree  " ++ String "010" "") = "missing tree".
Proof. reflexivity. Qed.

Example Contains_inside : Strings.Contains "dangling null sha1 entry" "null sha1" = true.
Proof. reflexivity. Qed.

Example Contains_absent : Strings.Contains "null sha" "null sha1" = false.
Proof. reflexivity. Qed.

Example Join_lines : Strings.Join ["a"; "b"; "c"] "," = "a,b,c".
Proof. reflexivity. Qed.

Example NewHash_canonical : NewHash EmptyTreeHash = EmptyTreeHash.
Proof. reflexivity. Qed.

Example NewHash_empty : NewHash "" = ZeroHash.
Proof. reflexivity. Qed.

Example NewHash_upper_short :
  NewHash "ABCDEF" = "abcdef0000000000000000000000000000000000".
Proof. reflexivity. Qed.

Example NewHash_bad_digit : NewHash "12zz34" = "1200000000000000000000000000000000000000".
Proof. reflexivity. Qed.

Example isReplaceRef_bare : isReplaceRef "refs/replace/" = false.
Proof. reflexivity. Qed.

Example isReplaceRef_named : isReplaceRef "refs/replace/4b825dc6" = true.
Proof. reflexivity. Qed.

Example insertionSort_func_sorts :
  Sort.insertionSort_func Nat.ltb [3; 1; 2; 1] = [1; 1; 2; 3].
Proof. reflexivity. Qed.

Example parseFsckOutput_lines :
  parseFsckOutput
    ("error: 4b825dc6: hash-path mismatch, found at: .git/objects/00/"
       ++ "00000000000000000000000000000000000000" ++ String "010"
     ("missing tree 1234" ++ String "010"
     ("warning: something else" ++ String "010" "")))
  = [mkIssue IssueTypeNullSHA "4b825dc6"
       "Object stored at null SHA path (hash-path mismatch)" "";
     mkIssue IssueTypeMissingCommit "" "missing tree 1234" ""].
Proof. reflexivity. Qed.

(** ** Store accessors *)

Section StoreFacts.
Context {hasher : Hasher}.

Lemma CommitObject_SetEncodedObject_eq r c :
  CommitObject (SetEncodedObject r (CommitObject_ c)).1
               (SetEncodedObject r (CommitObject_ c)).2 = Some c.
Proof. unfold CommitObject, SetEncodedObject; simpl. by rewrite lookup_insert_eq. Qed.

Lemma refs_SetEncodedObject r o : refs (SetEncodedObject r o).1 = refs r.
Proof. done. Qed.

End StoreFacts.

(** ** The rewrite step *)

Section RewriteFacts.
Context {hasher : Hasher}.

Lemma needsRewrite_false commitMap parents :
  needsRewrite commitMap parents = false ↔
  ∀ p, p ∈ parents → commitMap !! p = None.
Proof.
  unfold needsRewrite. induction parents as [|q qs IH]; simpl.
  - split; [intros _ p Hp; inversion Hp | done].
  - rewrite orb_false_iff, IH, bool_decide_eq_false. split.
    + intros [Hq Hqs] p Hp. apply elem_of_cons in Hp as [->|Hp]; [|by apply Hqs].
      destruct (commitMap !! q) eqn:E; [|done]. exfalso. apply Hq. by eexists.
    + intros Hall. split.
      * rewrite (Hall q) by left. by intros [? ?].
      * intros p Hp. apply Hall. by right.
Qed.

Lemma needsRewrite_true commitMap parents :
  needsRewrite commitMap parents = true ↔
  ∃ p, p ∈ parents ∧ is_Some (commitMap !! p).
Proof.
  destruct (needsRewrite commitMap parents) eqn:E.
  - split; [intros _|done].
    unfold needsRewrite in E. apply existsb_exists in E as (p & Hin & Hp).
    exists p. split; [by apply list_elem_of_In|]. by apply bool_decide_eq_true in Hp.
  - split; [done|]. intros (p & Hin & [q Hq]).
    rewrite needsRewrite_false in E. rewrite (E p Hin) in Hq. done.
Qed.

Lemma newParents_lookup commitMap parents i p :
  parents !! i = Some p →
  newParents commitMap parents !! i = Some (default p (commitMap !! p)).
Proof. intros Hi. unfold newParents. by rewrite list_lookup_fmap, Hi. Qed.

(** C4. Ancestry preservation: a commit that is not a key of the overlay and
    none of whose parents is a key of the overlay keeps its hash;
    [rewriteCommit] returns the original hash, stores nothing, and the loop
    of [FilterRepo] leaves the overlay as it was. *)
Theorem rewriteCommit_unchanged (r : Repository) (oldHash : Hash)
    (commitMap : gmap string Hash) :
  commitMap !! oldHash = None →
  (∀ c p, CommitObject r oldHash = Some c → p ∈ ParentHashes c →
          commitMap !! p = None) →
  rewriteCommit r oldHash commitMap = (r, oldHash)
  ∧ rewriteStep (r, commitMap) oldHash = (r, commitMap).
Proof.
  intros Hkey Hparents.
  assert (rewriteCommit r oldHash commitMap = (r, oldHash)) as Hrc.
  { unfold rewriteCommit. rewrite Hkey.
    destruct (CommitObject r oldHash) as [c|] eqn:Hc; [|done].
    assert (needsRewrite commitMap (ParentHashes c) = false) as ->; [|done].
    apply needsRewrite_false. intros p Hp. by apply (Hparents c). }
  split; [done|].
  unfold rewriteStep. simpl. rewrite Hrc. by rewrite String.eqb_refl.
Qed.

End RewriteFacts.

Lemma rewriteCommit_unchanged_witness :
  rewriteCommit (hasher := Fixtures.fixtureHash) Fixtures.selfMapped (Fixtures.h40 "c")
      {[ Fixtures.h40 "d" := Fixtures.h40 "e" ]}
    = (Fixtures.selfMapped, Fixtures.h40 "c")
  ∧ rewriteStep (hasher := Fixtures.fixtureHash)
      (Fixtures.selfMapped, {[ Fixtures.h40 "d" := Fixtures.h40 "e" ]}) (Fixtures.h40 "c")
    = (Fixtures.selfMapped, {[ Fixtures.h40 "d" := Fixtures.h40 "e" ]}).
Proof.
  apply (rewriteCommit_unchanged (hasher := Fixtures.fixtureHash)).
  - vm_compute. reflexivity.
  - intros c p Hc Hp. vm_compute in Hc. injection Hc as <-.
    apply list_elem_of_singleton in Hp as ->. vm_compute. reflexivity.
Defined.

Section RewritePropagation.
Context {hasher : Hasher}.

(** The commit [rewriteCommit] builds for a commit some parent of which is a
    key of the overlay. *)
Lemma rewriteCommit_rewrites r oldHash commitMap oldCommit :
  commitMap !! oldHash = None →
  CommitObject r oldHash = Some oldCommit →
  needsRewrite commitMap (ParentHashes oldCommit) = true →
  rewriteCommit r oldHash commitMap =
    SetEncodedObject r
      (CommitObject_ (mkCommit (Author oldCommit) (Committer oldCommit)
                        (Message oldCommit) (TreeHash oldCommit)
                        (newParents commitMap (ParentHashes oldCommit)))).
Proof. intros Hkey Hc Hn. unfold rewriteCommit. by rewrite Hkey, Hc, Hn. Qed.

(** C3 (amended). Rewrite propagation: when a commit that is not a key of the
    overlay has a parent that is, the loop of [FilterRepo] stores a new commit
    with the same tree, message, author and committer, whose parents are the
    old ones with every overlay key replaced by its overlay value; the overlay
    then maps the commit to the new hash, unless the new hash is the commit's
    own hash, in which case the overlay is left as it was. *)
Theorem rewrite_propagation (r : Repository) (oldHash : Hash)
    (commitMap : gmap string Hash) (oldCommit : Commit) :
  commitMap !! oldHash = None →
  CommitObject r oldHash = Some oldCommit →
  (∃ p, p ∈ ParentHashes oldCommit ∧ is_Some (commitMap !! p)) →
  ∃ newCommit,
    let newHash := hashObject (CommitObject_ newCommit) in
    let st' := rewriteStep (r, commitMap) oldHash in
    CommitObject st'.1 newHash = Some newCommit
    ∧ TreeHash newCommit = TreeHash oldCommit
    ∧ Message newCommit = Message oldCommit
    ∧ Author newCommit = Author oldCommit
    ∧ Committer newCommit = Committer oldCommit
    ∧ length (ParentHashes newCommit) = length (ParentHashes oldCommit)
    ∧ (∀ i p, ParentHashes oldCommit !! i = Some p →
              ParentHashes newCommit !! i =
                Some (match commitMap !! p with Some q => q | None => p end))
    ∧ (newHash ≠ oldHash → st'.2 = <[oldHash := newHash]> commitMap)
    ∧ (newHash = oldHash → st'.2 = commitMap).
Proof.
  intros Hkey Hc Hex. apply needsRewrite_true in Hex.
  set (newCommit := mkCommit (Author oldCommit) (Committer oldCommit)
                      (Message oldCommit) (TreeHash oldCommit)
                      (newParents commitMap (ParentHashes oldCommit))).
  exists newCommit. cbv zeta.
  unfold rewriteStep. simpl.
  rewrite (rewriteCommit_rewrites _ _ _ _ Hkey Hc Hex). fold newCommit.
  assert (CommitObject (SetEncodedObject r (CommitObject_ newCommit)).1
            (hashObject (CommitObject_ newCommit)) = Some newCommit) as Hstored
    by apply CommitObject_SetEncodedObject_eq.
  unfold SetEncodedObject in *. cbv beta iota.
  split; [|split; [done|split; [done|split; [done|split; [done|split; [|split; [|split]]]]]]].
  - by destruct (String.eqb _ oldHash).
  - unfold newCommit, newParents; simpl. by rewrite length_map.
  - intros i p Hi. unfold newCommit; simpl.
    rewrite (newParents_lookup _ _ _ _ Hi). by destruct (commitMap !! p).
  - intros Hne. apply String.eqb_neq in Hne. by rewrite Hne.
  - intros Heq. apply String.eqb_eq in Heq. by rewrite Heq.
Qed.

(** The sole-parent case of the propagation property: if [A] is replaced
    by [A'] and [A] is the only parent of [B], the commit stored for [B] has
    [A'] as its only parent. *)
Lemma rewrite_sole_parent r hashB commitMap commitB hashA hashA' :
  commitMap !! hashB = None →
  CommitObject r hashB = Some commitB →
  ParentHashes commitB = [hashA] →
  commitMap !! hashA = Some hashA' →
  let '(r', newHash) := rewriteCommit r hashB commitMap in
  ∃ newB, CommitObject r' newHash = Some newB ∧ ParentHashes newB = [hashA'].
Proof.
  intros Hkey Hc Hp Ha.
  rewrite (rewriteCommit_rewrites _ _ _ _ Hkey Hc).
  - eexists. split; [apply CommitObject_SetEncodedObject_eq|].
    simpl. by rewrite Hp; simpl; rewrite Ha.
  - apply needsRewrite_true. exists hashA. rewrite Hp, Ha. split; [by left|by eexists].
Qed.

End RewritePropagation.

Lemma rewrite_propagation_witness :
  ∃ newCommit,
    CommitObject
      (rewriteStep (hasher := Fixtures.fixtureHash)
         (Fixtures.selfMapped, Fixtures.replacedOverlay) (Fixtures.h40 "c")).1
      (Fixtures.fixtureHash (CommitObject_ newCommit)) = Some newCommit
    ∧ ParentHashes newCommit = [Fixtures.h40 "d"].
Proof.
  destruct (rewrite_propagation (hasher := Fixtures.fixtureHash)
              Fixtures.selfMapped (Fixtures.h40 "c") Fixtures.replacedOverlay
              Fixtures.childC)
    as (newCommit & Hstored & _ & _ & _ & _ & Hlen & Hparents & _).
  - vm_compute. reflexivity.
  - vm_compute. reflexivity.
  - exists (Fixtures.h40 "a"). split; [by left|]. vm_compute. by eexists.
  - exists newCommit. split; [exact Hstored|].
    specialize (Hparents 0 (Fixtures.h40 "a") eq_refl).
    destruct (ParentHashes newCommit) as [|q [|q' qs]]; simpl in *; try discriminate.
    injection Hparents as ->. reflexivity.
Defined.

(** C3, as stated, fails where the overlay maps a parent to itself: the
    re-encoded commit is the commit itself, [FilterRepo] sees the same hash
    come back and adds nothing to the overlay. *)
Lemma rewrite_propagation_self_replacement :
  Fixtures.selfOverlay !! Fixtures.h40 "c" = None
  ∧ CommitObject Fixtures.selfMapped (Fixtures.h40 "c") = Some Fixtures.childC
  ∧ Fixtures.h40 "a" ∈ ParentHashes Fixtures.childC
  ∧ is_Some (Fixtures.selfOverlay !! Fixtures.h40 "a")
  ∧ Fixtures.fixtureHash (CommitObject_ Fixtures.childC) = Fixtures.h40 "c"
  ∧ (rewriteStep (hasher := Fixtures.fixtureHash)
       (Fixtures.selfMapped, Fixtures.selfOverlay) (Fixtures.h40 "c")).2
      !! Fixtures.h40 "c" = None.
Proof.
  repeat split; try (vm_compute; reflexivity).
  - by left.
  - vm_compute. by eexists.
Qed.

(** ** Reference names *)

Lemma prefix_cons_inv a s1 s2 :
  String.prefix (String a s1) s2 = true →
  ∃ s2', s2 = String a s2' ∧ String.prefix s1 s2' = true.
Proof.
  destruct s2 as [|b s2]; [discriminate|].
  change (String.prefix (String a s1) (String b s2))
    with (if ascii_dec a b then String.prefix s1 s2 else false).
  destruct (ascii_dec a b) as [<-|]; [|discriminate]. eauto.
Qed.

Lemma IsBranch_not_replace n : IsBranch n = true → isReplaceRef n = false.
Proof.
  unfold IsBranch, Strings.HasPrefix, isReplaceRef. intros Hp.
  do 6 (apply prefix_cons_inv in Hp as (? & -> & Hp)).
  simpl. apply andb_false_r.
Qed.

Lemma IsTag_not_replace n : IsTag n = true → isReplaceRef n = false.
Proof.
  unfold IsTag, Strings.HasPrefix, isReplaceRef. intros Hp.
  do 6 (apply prefix_cons_inv in Hp as (? & -> & Hp)).
  simpl. apply andb_false_r.
Qed.

Lemma HEAD_not_branch : IsBranch "HEAD" = false.
Proof. reflexivity. Qed.

(** ** The reference store *)

Lemma elem_of_References r ref :
  ref ∈ References r ↔ ∃ k, refs r !! k = Some ref.
Proof.
  unfold References. rewrite list_elem_of_fmap. split.
  - intros ([k ref'] & -> & Hin). exists k. by apply elem_of_map_to_list.
  - intros [k Hk]. exists (k, ref). split; [done|]. by apply elem_of_map_to_list.
Qed.

Lemma References_names r :
  refs_keyed r → RefName <$> References r = (map_to_list (refs r)).*1.
Proof.
  intros Hk. unfold References. rewrite <- list_fmap_compose.
  apply list_fmap_ext. intros i [k ref] Hi. simpl.
  apply (Hk k). apply elem_of_map_to_list. by eapply list_elem_of_lookup_2.
Qed.

Lemma References_names_NoDup r :
  refs_keyed r → NoDup (RefName <$> References r).
Proof. intros Hk. rewrite References_names by done. apply NoDup_fst_map_to_list. Qed.

Lemma omap_names_sublist {A B} (g : A → option B) (f : A → string) (name : B → string)
    (l : list A) :
  (∀ x y, g x = Some y → name y = f x) →
  (name <$> omap g l) `sublist_of` (f <$> l).
Proof.
  intros Hg. induction l as [|x l IH]; simpl; [constructor|].
  destruct (g x) as [y|] eqn:E; simpl.
  - rewrite (Hg x y E). by constructor.
  - by constructor.
Qed.

Lemma refs_keyed_SetReference r ref :
  refs_keyed r → refs_keyed (SetReference r ref).
Proof.
  intros Hk n ref'. unfold SetReference; simpl. rewrite lookup_insert.
  case_decide; [by intros [= <-]|]. apply Hk.
Qed.

Lemma refs_keyed_RemoveReference r n :
  refs_keyed r → refs_keyed (RemoveReference r n).
Proof.
  intros Hk k ref'. unfold RemoveReference; simpl. rewrite lookup_delete.
  case_decide; [done|]. apply Hk.
Qed.

(** ** [updateAllReferences] *)

Lemma foldl_applyUpdate_objects us r :
  objects (foldl applyUpdate r us) = objects r.
Proof. revert r. induction us as [|u us IH]; intros r; simpl; [done|]. by rewrite IH. Qed.

Lemma foldl_applyUpdate_other us r n :
  n ∉ us.*1.*1 → refs (foldl applyUpdate r us) !! n = refs r !! n.
Proof.
  revert r. induction us as [|u us IH]; intros r Hn; simpl; [done|].
  simpl in Hn. apply not_elem_of_cons in Hn as [Hne Hn].
  rewrite IH by done. unfold applyUpdate, SetReference; simpl.
  by rewrite lookup_insert_ne.
Qed.

Lemma foldl_applyUpdate_in us r n old new :
  NoDup (us.*1.*1) → (n, old, new) ∈ us →
  refs (foldl applyUpdate r us) !! n = Some (NewHashReference n new).
Proof.
  revert r. induction us as [|u us IH]; intros r Hnd Hin; [by inversion Hin|].
  simpl in Hnd. apply NoDup_cons in Hnd as [Hfresh Hnd].
  apply elem_of_cons in Hin as [<-|Hin]; simpl.
  - rewrite foldl_applyUpdate_other by done.
    unfold applyUpdate, SetReference; simpl. by rewrite lookup_insert_eq.
  - by apply IH.
Qed.

Lemma elem_of_refsToUpdate r commitMap n old new :
  (n, old, new) ∈ refsToUpdate r commitMap ↔
  ∃ ref, ref ∈ References r ∧ RefName ref = n ∧ RefHash ref = old
         ∧ isReplaceRef n = false ∧ IsBranch n || IsTag n = true
         ∧ commitMap !! old = Some new.
Proof.
  unfold refsToUpdate. rewrite list_elem_of_omap. split.
  - intros (ref & Hin & Hf). exists ref.
    destruct (isReplaceRef (RefName ref)) eqn:E1; [done|].
    destruct (IsBranch (RefName ref)) eqn:E2, (IsTag (RefName ref)) eqn:E3;
      simpl in Hf; try done;
      destruct (commitMap !! RefHash ref) eqn:E4; try done;
      injection Hf as <- <- <-; by rewrite ?E1, ?E2, ?E3.
  - intros (ref & Hin & <- & <- & E1 & E2 & E4). exists ref. split; [done|].
    rewrite E1, E4.
    by destruct (IsBranch (RefName ref)), (IsTag (RefName ref)).
Qed.

Lemma refsToUpdate_names_NoDup r commitMap :
  refs_keyed r → NoDup ((refsToUpdate r commitMap).*1.*1).
Proof.
  intros Hk. eapply sublist_NoDup; [apply (References_names_NoDup r Hk)|].
  unfold refsToUpdate. rewrite <- list_fmap_compose.
  apply omap_names_sublist. intros ref [[n old] new] Hf. simpl.
  destruct (isReplaceRef (RefName ref)); [done|].
  destruct (negb (IsBranch (RefName ref)) && negb (IsTag (RefName ref))); [done|].
  destruct (commitMap !! RefHash ref); [|done]. by injection Hf as <- _ _.
Qed.

(** C8. Reference repointing: [updateAllReferences] sets every branch and
    tag reference whose hash is a key of the overlay to the mapped hash,
    leaves alone every reference whose hash is not a key, every replace
    reference and every reference that is neither branch nor tag, creates
    no reference and touches no object; and at every point of the update
    loop each reference holds either its old value or its final one. *)
Theorem updateAllReferences_repoints (r : Repository) (commitMap : gmap string Hash) :
  refs_keyed r →
  let r' := updateAllReferences r commitMap in
  (∀ n ref newHash,
      refs r !! n = Some ref → IsBranch n || IsTag n = true →
      commitMap !! RefHash ref = Some newHash →
      refs r' !! n = Some (NewHashReference n newHash))
  ∧ (∀ n ref,
      refs r !! n = Some ref →
      commitMap !! RefHash ref = None ∨ isReplaceRef n = true
        ∨ IsBranch n || IsTag n = false →
      refs r' !! n = Some ref)
  ∧ (∀ n, refs r !! n = None → refs r' !! n = None)
  ∧ (∀ k n,
      let mid := foldl applyUpdate r (take k (refsToUpdate r commitMap)) in
      refs mid !! n = refs r !! n ∨ refs mid !! n = refs r' !! n)
  ∧ objects r' = objects r.
Proof.
  intros Hk r'. subst r'. unfold updateAllReferences.
  pose proof (refsToUpdate_names_NoDup r commitMap Hk) as Hnd.
  assert (∀ n, n ∈ (refsToUpdate r commitMap).*1.*1 →
               ∃ ref new, refs r !! n = Some ref
                 ∧ isReplaceRef n = false ∧ IsBranch n || IsTag n = true
                 ∧ commitMap !! RefHash ref = Some new
                 ∧ (n, RefHash ref, new) ∈ refsToUpdate r commitMap) as Hin.
  { intros n Hn. apply list_elem_of_fmap in Hn as ([n' old] & -> & Hn).
    apply list_elem_of_fmap in Hn as ([[n'' old'] new] & [= <- <-] & Hn).
    pose proof Hn as Hn'.
    apply elem_of_refsToUpdate in Hn as (ref & Href & <- & <- & E1 & E2 & E3).
    exists ref, new. repeat split; try done.
    apply elem_of_References in Href as [k Hkref].
    by rewrite <- (Hk _ _ Hkref) in Hkref. }
  split; [|split; [|split; [|split]]].
  - intros n ref newHash Href Hbt Hcm.
    apply (foldl_applyUpdate_in _ _ _ (RefHash ref)); [done|].
    apply elem_of_refsToUpdate. exists ref.
    rewrite (Hk _ _ Href). repeat split; try done.
    + apply elem_of_References. by exists n.
    + apply orb_true_iff in Hbt as [Hb|Ht];
        [by apply IsBranch_not_replace|by apply IsTag_not_replace].
  - intros n ref Href Hcase. rewrite foldl_applyUpdate_other; [done|].
    intros Hn. apply Hin in Hn as (ref' & new & Href' & E1 & E2 & E3 & _).
    rewrite Href in Href'. injection Href' as <-.
    destruct Hcase as [Hc|[Hc|Hc]]; congruence.
  - intros n Hnone. rewrite foldl_applyUpdate_other; [done|].
    intros Hn. apply Hin in Hn as (ref' & new & Href' & _). congruence.
  - intros k n. cbv zeta.
    destruct (decide (n ∈ (take k (refsToUpdate r commitMap)).*1.*1)) as [Hn|Hn].
    + right.
      apply list_elem_of_fmap in Hn as ([n' old] & -> & Hn).
      apply list_elem_of_fmap in Hn as ([[n'' old'] new] & [= <- <-] & Hn).
      rewrite (foldl_applyUpdate_in _ _ _ old new); [| |done].
      * symmetry. apply (foldl_applyUpdate_in _ _ _ old new); [done|].
        eapply elem_of_sublist; [done|apply sublist_take].
      * eapply sublist_NoDup; [exact Hnd|].
        do 2 apply fmap_sublist. apply sublist_take.
    + left. by apply foldl_applyUpdate_other.
  - apply foldl_applyUpdate_objects.
Qed.

Lemma updateAllReferences_repoints_witness :
  refs (updateAllReferences Fixtures.tagged Fixtures.taggedOverlay) !! "refs/heads/main"
    = Some (NewHashReference "refs/heads/main" (Fixtures.h40 "e"))
  ∧ refs (updateAllReferences Fixtures.tagged Fixtures.taggedOverlay) !! "HEAD"
    = Some (NewSymbolicReference "HEAD" "refs/heads/main").
Proof.
  assert (refs_keyed Fixtures.tagged) as Hk by (refine (bool_decide_unpack _ _); vm_compute; exact I).
  destruct (updateAllReferences_repoints Fixtures.tagged Fixtures.taggedOverlay Hk)
    as (Hset & Hkeep & _).
  split.
  - apply (Hset _ (NewHashReference "refs/heads/main" (Fixtures.h40 "c"))).
    + vm_compute. reflexivity.
    + vm_compute. reflexivity.
    + vm_compute. reflexivity.
  - apply Hkeep.
    + vm_compute. reflexivity.
    + right. right. vm_compute. reflexivity.
Defined.

(** ** Termination of the commit walk *)

Section Walk.
Variable r : Repository.

Lemma unvisited_mono (v1 v2 : gset string) :
  v1 ⊆ v2 → (unvisited r v2 ≤ unvisited r v1)%nat.
Proof.
  intros Hsub. apply subseteq_size.
  intros x [Hx Hn]%elem_of_difference. apply elem_of_difference.
  split; [done|]. intros Hv. by apply Hn, Hsub.
Qed.

Lemma unvisited_le (visited : gset string) :
  (unvisited r visited ≤ size (objects r))%nat.
Proof.
  unfold unvisited. rewrite <- (size_dom (objects r)).
  apply subseteq_size. by intros x [Hx _]%elem_of_difference.
Qed.

Lemma unvisited_step (hash : Hash) (visited : gset string) :
  hash ∉ visited → is_Some (CommitObject r hash) →
  (unvisited r ({[hash]} ∪ visited) < unvisited r visited)%nat.
Proof.
  intros Hfresh [c Hc]. apply subset_size.
  assert (hash ∈ dom (objects r)) as Hdom.
  { apply elem_of_dom. unfold CommitObject in Hc.
    destruct (objects r !! hash); [by eexists|done]. }
  split.
  - intros x [Hx Hn]%elem_of_difference. apply elem_of_difference.
    split; [done|]. intros Hv. apply Hn, elem_of_union. by right.
  - intros Hrev.
    assert (hash ∈ dom (objects r) ∖ ({[hash]} ∪ visited)) as Hin
      by (apply Hrev, elem_of_difference; by split).
    apply elem_of_difference in Hin as [_ Hn].
    apply Hn, elem_of_union. left. by apply elem_of_singleton.
Qed.

Lemma walkCommitsFuel_S fuel hash visited :
  walkCommitsFuel (S fuel) r hash visited =
    if decide (hash ∈ visited) then Some (visited, None)
    else match CommitObject r hash with
         | None => Some ({[hash]} ∪ visited, Some "object not found")
         | Some commit =>
             v ← walkParents fuel r (Some ({[hash]} ∪ visited)) (ParentHashes commit);
             Some (v, None)
         end.
Proof. reflexivity. Qed.

Lemma walkParents_None fuel parents : walkParents fuel r None parents = None.
Proof. unfold walkParents. by induction parents. Qed.

Lemma walkParents_cons fuel v0 p ps :
  walkParents fuel r (Some v0) (p :: ps) =
    walkParents fuel r (fst <$> walkCommitsFuel fuel r p v0) ps.
Proof. reflexivity. Qed.

Lemma walkCommitsFuel_enough fuel hash (visited : gset string) :
  (unvisited r visited < fuel)%nat →
  ∃ v e, walkCommitsFuel fuel r hash visited = Some (v, e) ∧ visited ⊆ v.
Proof.
  revert hash visited. induction fuel as [|fuel IH]; intros hash visited Hlt; [lia|].
  rewrite walkCommitsFuel_S.
  destruct (decide (hash ∈ visited)) as [Hin|Hfresh]; [by eauto|].
  destruct (CommitObject r hash) as [commit|] eqn:Hc.
  2: { eexists _, _. split; [done|]. apply union_subseteq_r. }
  assert (unvisited r ({[hash]} ∪ visited) < fuel)%nat as Hlt'.
  { pose proof (unvisited_step hash visited Hfresh (ltac:(by eexists))). lia. }
  assert (∀ parents (v0 : gset string),
             (unvisited r v0 < fuel)%nat →
             ∃ v, walkParents fuel r (Some v0) parents = Some v ∧ v0 ⊆ v) as Hloop.
  { induction parents as [|p ps IHps]; intros v0 Hv0; [by exists v0|].
    rewrite walkParents_cons.
    destruct (IH p v0 Hv0) as (v1 & e1 & -> & Hsub). simpl.
    destruct (IHps v1) as (v & Hv & Hsub').
    - pose proof (unvisited_mono v0 v1 Hsub). lia.
    - exists v. split; [done|]. by transitivity v1. }
  destruct (Hloop (ParentHashes commit) _ Hlt') as (v & -> & Hsub). simpl.
  eexists _, _. split; [done|].
  transitivity ({[hash]} ∪ visited); [apply union_subseteq_r|done].
Qed.


Lemma walkCommits_fuel hash visited :
  walkCommitsFuel (S (size (objects r))) r hash visited
    = Some (walkCommits r hash visited).
Proof.
  destruct (walkCommitsFuel_enough (S (size (objects r))) hash visited)
    as (v & e & Hv & _).
  - pose proof (unvisited_le visited). lia.
  - unfold walkCommits. by rewrite Hv.
Qed.



End Walk.

Section FilterFacts.
Context {hasher : Hasher} {runtime : GoRuntime}.


Lemma FilterRepo_Err r msg :
  FilterRepo r = Err msg →
  size (getReplaceRefs r) = 0 ∧ msg = "no replace refs found - nothing to rewrite".
Proof.
  unfold FilterRepo.
  destruct (Nat.eqb_spec (size (getReplaceRefs r)) 0) as [Hz|_].
  - by intros [= <-].
  - by destruct (foldl rewriteStep _ _).
Qed.

End FilterFacts.




(** C1. [getAllCommitsTopological] on a three-commit chain whose tip has the
    smallest hash: when the map iteration yields tip, root, middle, the
    sort leaves that order, so the tip comes before its parent; when the
    iteration yields root, middle, tip the result is a different one.  The
    returned order is neither topological nor reproducible. *)
Theorem getAllCommitsTopological_chain :
  let a := Fixtures.h40 "a" in
  let b := Fixtures.h40 "b" in
  let c := Fixtures.h40 "c" in
  let run1 := getAllCommitsTopological (runtime := Fixtures.runtimeFirst [a; c; b])
                Fixtures.chain in
  let run2 := getAllCommitsTopological (runtime := Fixtures.runtimeFirst [c; b; a])
                Fixtures.chain in
  (∃ ca, CommitObject Fixtures.chain a = Some ca ∧ ParentHashes ca = [b])
  ∧ run1 = [a; c; b]
  ∧ ¬ topological Fixtures.chain run1
  ∧ run2 = [c; b; a]
  ∧ run1 ≠ run2.
Proof.
  cbv zeta.
  assert (getAllCommitsTopological
            (runtime := Fixtures.runtimeFirst
                          [Fixtures.h40 "a"; Fixtures.h40 "c"; Fixtures.h40 "b"])
            Fixtures.chain
          = [Fixtures.h40 "a"; Fixtures.h40 "c"; Fixtures.h40 "b"]) as ->
    by (vm_compute; reflexivity).
  assert (getAllCommitsTopological
            (runtime := Fixtures.runtimeFirst
                          [Fixtures.h40 "c"; Fixtures.h40 "b"; Fixtures.h40 "a"])
            Fixtures.chain
          = [Fixtures.h40 "c"; Fixtures.h40 "b"; Fixtures.h40 "a"]) as ->
    by (vm_compute; reflexivity).
  split; [|split; [|split; [|split]]]; try done.
  - eexists. split; [vm_compute; reflexivity|]. reflexivity.
  - intros Htopo.
    specialize (Htopo 0 2 (Fixtures.h40 "a")
                  (Fixtures.commit "a grandchild" EmptyTreeHash [Fixtures.h40 "b"])
                  (Fixtures.h40 "b")).
    assert (2 < 0)%nat; [|lia].
    apply Htopo; try reflexivity. by left.
Qed.

(** ** The integrity scanner *)

Lemma ZeroHash_nullSHA : ZeroHash = nullSHA.
Proof. reflexivity. Qed.

Lemma IsZero_or_null h :
  IsZero h || String.eqb h nullSHA = String.eqb h ZeroHash.
Proof. unfold IsZero. rewrite <- ZeroHash_nullSHA. apply orb_diag. Qed.

Lemma parseFsckLine_kinds line issue :
  issue ∈ parseFsckLine line →
  IssueKind issue = IssueTypeNullSHA ∨ IssueKind issue = IssueTypeMissingCommit.
Proof.
  unfold parseFsckLine. intros Hin.
  repeat match type of Hin with
         | _ ∈ (if ?b then _ else _) => destruct b
         | _ ∈ (match ?l with [] => _ | _ :: _ => _ end) => destruct l
         | _ ∈ [] => by inversion Hin
         | _ ∈ [_] => apply list_elem_of_singleton in Hin as ->; simpl; by auto
         end.
Qed.

Lemma parseFsckOutput_kinds output issue :
  issue ∈ parseFsckOutput output →
  IssueKind issue = IssueTypeNullSHA ∨ IssueKind issue = IssueTypeMissingCommit.
Proof.
  unfold parseFsckOutput. destruct (Nat.ltb _ _); [|by inversion 1].
  rewrite list_elem_of_In, in_flat_map. intros (line & _ & Hin).
  destruct (String.eqb _ ""); [done|].
  eapply parseFsckLine_kinds. by apply list_elem_of_In.
Qed.

Lemma filter_none {A} (P : A → Prop) `{∀ x, Decision (P x)} (l : list A) :
  (∀ x, x ∈ l → ¬ P x) → filter P l = [].
Proof.
  induction l as [|x l IH]; intros Hall; [done|].
  rewrite filter_cons_False by (apply Hall; by left).
  apply IH. intros y Hy. apply Hall. by right.
Qed.

Lemma parseFsckOutput_filter k output :
  k = IssueTypeMissingTree ∨ k = IssueTypeBrokenParent →
  filter (λ i, hasKind k i = true) (parseFsckOutput output) = [].
Proof.
  intros Hk. apply filter_none. intros issue Hin Hkind.
  apply bool_decide_eq_true in Hkind.
  destruct (parseFsckOutput_kinds _ _ Hin), Hk; congruence.
Qed.

Lemma elem_of_checkRef_MissingTree r ref issue :
  issue ∈ checkRef r ref ∧ IssueKind issue = IssueTypeMissingTree ↔
  ∃ commit, checkedCommit r ref = Some commit
            ∧ TreeObject r (TreeHash commit) = None
            ∧ issue = mkIssue IssueTypeMissingTree (TreeHash commit)
                        "Commit references missing tree" (RefHash ref).
Proof.
  unfold checkRef, checkedCommit. rewrite IsZero_or_null.
  destruct (RefType ref).
  2: { split; [by intros [Hin _]; inversion Hin|by intros (? & ? & _)]. }
  destruct (String.eqb (RefHash ref) ZeroHash).
  { split; [|by intros (? & ? & _)].
    intros [Hin Hk]. apply list_elem_of_singleton in Hin as ->. done. }
  destruct (CommitObject r (RefHash ref)) as [commit|].
  2: { split; [|by intros (? & ? & _)].
       intros [Hin Hk]. apply list_elem_of_singleton in Hin as ->. done. }
  split.
  - intros [Hin Hk]. exists commit. split; [done|].
    apply elem_of_app in Hin as [Hin|Hin].
    + destruct (TreeObject r (TreeHash commit)); [by inversion Hin|].
      apply list_elem_of_singleton in Hin as ->. done.
    + exfalso. apply list_elem_of_In, in_flat_map in Hin as (p & _ & Hin).
      destruct (IsZero p || String.eqb p nullSHA); [|done].
      destruct Hin as [<-|[]]. done.
  - intros (commit' & [= <-] & Htree & ->). split; [|done].
    apply elem_of_app. left. rewrite Htree. by left.
Qed.

Lemma elem_of_checkRef_BrokenParent r ref issue :
  issue ∈ checkRef r ref ∧ IssueKind issue = IssueTypeBrokenParent ↔
  ∃ commit, checkedCommit r ref = Some commit
            ∧ ZeroHash ∈ ParentHashes commit
            ∧ issue = mkIssue IssueTypeBrokenParent (RefHash ref)
                        "Commit has null parent SHA" "".
Proof.
  unfold checkRef, checkedCommit. rewrite IsZero_or_null.
  destruct (RefType ref).
  2: { split; [by intros [Hin _]; inversion Hin|by intros (? & ? & _)]. }
  destruct (String.eqb (RefHash ref) ZeroHash).
  { split; [|by intros (? & ? & _)].
    intros [Hin Hk]. apply list_elem_of_singleton in Hin as ->. done. }
  destruct (CommitObject r (RefHash ref)) as [commit|].
  2: { split; [|by intros (? & ? & _)].
       intros [Hin Hk]. apply list_elem_of_singleton in Hin as ->. done. }
  split.
  - intros [Hin Hk]. exists commit. split; [done|].
    apply elem_of_app in Hin as [Hin|Hin].
    + destruct (TreeObject r (TreeHash commit)); [by inversion Hin|].
      apply list_elem_of_singleton in Hin as ->. done.
    + apply list_elem_of_In, in_flat_map in Hin as (p & Hp & Hin).
      rewrite IsZero_or_null in Hin.
      destruct (String.eqb_spec p ZeroHash) as [->|]; [|done].
      destruct Hin as [<-|[]]. split; [|done]. by apply list_elem_of_In.
  - intros (commit' & [= <-] & Hp & ->). split; [|done].
    apply elem_of_app. right. apply list_elem_of_In, in_flat_map.
    exists ZeroHash. split; [by apply list_elem_of_In|]. by left.
Qed.

Lemma checkRef_MissingTree_count r ref :
  length (filter (λ i, hasKind IssueTypeMissingTree i = true) (checkRef r ref))
    = if missingTreeAt r ref then 1 else 0.
Proof.
  unfold missingTreeAt, checkRef, checkedCommit. rewrite IsZero_or_null.
  destruct (RefType ref); [|done].
  destruct (String.eqb (RefHash ref) ZeroHash); [done|].
  destruct (CommitObject r (RefHash ref)) as [commit|]; [|done].
  rewrite filter_app, length_app.
  assert (filter (λ i, hasKind IssueTypeMissingTree i = true)
            (flat_map (λ parentHash,
                         if IsZero parentHash || String.eqb parentHash nullSHA
                         then [mkIssue IssueTypeBrokenParent (RefHash ref)
                                 "Commit has null parent SHA" ""]
                         else [])
                      (ParentHashes commit)) = []) as ->.
  { apply filter_none. intros issue Hin Hk.
    apply list_elem_of_In, in_flat_map in Hin as (p & _ & Hin).
    destruct (IsZero p || String.eqb p nullSHA); [|done].
    destruct Hin as [<-|[]]. done. }
  destruct (TreeObject r (TreeHash commit)); by simpl.
Qed.

(** C2 (amended). The in-process pass of [RunFsck] looks at the commit each
    hash reference with a non-null hash points at directly, once per
    reference: a missing-tree issue is reported exactly for such a commit
    whose tree does not load, a broken-parent issue exactly for such a commit
    with a null parent, and the number of missing-tree issues is the number of
    references (not of commits) that point at a commit with a missing tree.
    Parents are not followed and no visited set is kept. *)
Theorem RunFsck_direct_targets (output : string) (r : Repository) :
  (∀ issue,
      issue ∈ RunFsck output r ∧ IssueKind issue = IssueTypeMissingTree ↔
      ∃ ref commit,
        ref ∈ References r ∧ checkedCommit r ref = Some commit
        ∧ TreeObject r (TreeHash commit) = None
        ∧ issue = mkIssue IssueTypeMissingTree (TreeHash commit)
                    "Commit references missing tree" (RefHash ref))
  ∧ (∀ issue,
      issue ∈ RunFsck output r ∧ IssueKind issue = IssueTypeBrokenParent ↔
      ∃ ref commit,
        ref ∈ References r ∧ checkedCommit r ref = Some commit
        ∧ ZeroHash ∈ ParentHashes commit
        ∧ issue = mkIssue IssueTypeBrokenParent (RefHash ref)
                    "Commit has null parent SHA" "")
  ∧ length (filter (λ i, hasKind IssueTypeMissingTree i = true) (RunFsck output r))
    = length (filter (λ ref, missingTreeAt r ref = true) (References r)).
Proof.
  unfold RunFsck. split; [|split].
  - intros issue. split.
    + intros [Hin Hk]. apply elem_of_app in Hin as [Hin|Hin].
      { destruct (parseFsckOutput_kinds _ _ Hin); congruence. }
      apply list_elem_of_In, in_flat_map in Hin as (ref & Href & Hin).
      destruct (proj1 (elem_of_checkRef_MissingTree r ref issue)) as (commit & ?).
      { split; [by apply list_elem_of_In|done]. }
      exists ref, commit. split; [by apply list_elem_of_In|done].
    + intros (ref & commit & Href & Hrest).
      destruct (proj2 (elem_of_checkRef_MissingTree r ref issue)) as [Hin Hk];
        [by exists commit|].
      split; [|done]. apply elem_of_app. right.
      apply list_elem_of_In, in_flat_map. exists ref.
      split; by apply list_elem_of_In.
  - intros issue. split.
    + intros [Hin Hk]. apply elem_of_app in Hin as [Hin|Hin].
      { destruct (parseFsckOutput_kinds _ _ Hin); congruence. }
      apply list_elem_of_In, in_flat_map in Hin as (ref & Href & Hin).
      destruct (proj1 (elem_of_checkRef_BrokenParent r ref issue)) as (commit & ?).
      { split; [by apply list_elem_of_In|done]. }
      exists ref, commit. split; [by apply list_elem_of_In|done].
    + intros (ref & commit & Href & Hrest).
      destruct (proj2 (elem_of_checkRef_BrokenParent r ref issue)) as [Hin Hk];
        [by exists commit|].
      split; [|done]. apply elem_of_app. right.
      apply list_elem_of_In, in_flat_map. exists ref.
      split; by apply list_elem_of_In.
  - rewrite filter_app, length_app, parseFsckOutput_filter by auto. simpl.
    induction (References r) as [|ref l IH]; [done|]. simpl.
    rewrite filter_app, length_app, IH, checkRef_MissingTree_count.
    rewrite filter_cons. destruct (missingTreeAt r ref); by simpl.
Qed.

Lemma RunFsck_direct_targets_witness :
  length (filter (λ i, hasKind IssueTypeMissingTree i = true)
            (RunFsck "" Fixtures.twice)) = 2.
Proof.
  rewrite (proj2 (proj2 (RunFsck_direct_targets "" Fixtures.twice))).
  vm_compute. reflexivity.
Defined.

(** C2, as stated, fails: the parent [a] of the branch tip has a tree that
    does not load and a null parent, yet no run of [RunFsck], whatever the
    external check printed, reports a missing tree or a broken parent. *)
Lemma RunFsck_skips_ancestors :
  (∃ tip broken,
      refs Fixtures.deep !! "refs/heads/main"
        = Some (NewHashReference "refs/heads/main" (Fixtures.h40 "b"))
      ∧ CommitObject Fixtures.deep (Fixtures.h40 "b") = Some tip
      ∧ Fixtures.h40 "a" ∈ ParentHashes tip
      ∧ CommitObject Fixtures.deep (Fixtures.h40 "a") = Some broken
      ∧ TreeObject Fixtures.deep (TreeHash broken) = None
      ∧ ZeroHash ∈ ParentHashes broken)
  ∧ ∀ output issue,
      issue ∈ RunFsck output Fixtures.deep →
      IssueKind issue ≠ IssueTypeMissingTree
      ∧ IssueKind issue ≠ IssueTypeBrokenParent.
Proof.
  split.
  - eexists _, _. split; [vm_compute; reflexivity|].
    split; [vm_compute; reflexivity|]. split; [by left|].
    split; [vm_compute; reflexivity|]. split; [vm_compute; reflexivity|]. by left.
  - intros output issue Hin. unfold RunFsck in Hin.
    apply elem_of_app in Hin as [Hin|Hin].
    { destruct (parseFsckOutput_kinds _ _ Hin) as [-> | ->]; done. }
    assert (flat_map (checkRef Fixtures.deep) (References Fixtures.deep) = []) as Hnone
      by (vm_compute; reflexivity).
    rewrite Hnone in Hin. inversion Hin.
Qed.

(** ** The replacement planner *)

Section ReplaceFacts.
Context {hasher : Hasher}.

(** Storing a commit and filing a reference under it: what can be read
    back. *)
Lemma staged_commit r1 c name :
  let '(r2, newHash) := SetEncodedObject r1 (CommitObject_ c) in
  let r' := SetReference r2 (NewHashReference name newHash) in
  refs r' !! name = Some (NewHashReference name (hashObject (CommitObject_ c)))
  ∧ CommitObject r' (hashObject (CommitObject_ c)) = Some c
  ∧ ∀ h, is_Some (CommitObject r1 h) → is_Some (CommitObject r' h).
Proof.
  unfold SetEncodedObject, SetReference, CommitObject; simpl.
  rewrite !lookup_insert_eq. split; [done|]. split; [done|].
  intros h Hh. rewrite lookup_insert. by case_decide.
Qed.

Lemma createMinimalReplacement_staged now r bc :
  let r' := createMinimalReplacement now r bc in
  ∃ newCommit,
    refs r' !! ("refs/replace/" ++ BadHash bc)
      = Some (NewHashReference ("refs/replace/" ++ BadHash bc)
                (hashObject (CommitObject_ newCommit)))
    ∧ CommitObject r' (hashObject (CommitObject_ newCommit)) = Some newCommit
    ∧ ParentHashes newCommit =
        (if String.eqb (BadParentHash bc) "" then [] else [NewHash (BadParentHash bc)]).
Proof.
  unfold createMinimalReplacement.
  destruct (match TreeObject r (NewHash EmptyTreeHash) with
            | Some _ => (r, NewHash EmptyTreeHash)
            | None => SetEncodedObject r (TreeObject_ emptyTree)
            end) as [r1 emptyTreeHash].
  match goal with
  | |- context [SetEncodedObject r1 (CommitObject_ ?c)] =>
      pose proof (staged_commit r1 c ("refs/replace/" ++ BadHash bc)) as Hs;
      destruct (SetEncodedObject r1 (CommitObject_ c)) as [r2 newHash];
      exists c
  end.
  destruct Hs as (Href & Hc & _). cbv zeta. split; [done|]. split; [done|].
  simpl. by destruct (String.eqb (BadParentHash bc) "").
Qed.

(** The part of C5 that holds: on the path for a readable commit,
    [ReplaceCommit] keeps the recorded parent only when it loads as a
    commit. *)
Lemma ReplaceCommit_parents_resolve now r bc oldCommit :
  CommitObject r (NewHash (BadHash bc)) = Some oldCommit →
  let r' := ReplaceCommit now r bc in
  ∃ newCommit,
    refs r' !! ("refs/replace/" ++ BadHash bc)
      = Some (NewHashReference ("refs/replace/" ++ BadHash bc)
                (hashObject (CommitObject_ newCommit)))
    ∧ CommitObject r' (hashObject (CommitObject_ newCommit)) = Some newCommit
    ∧ ∀ p, p ∈ ParentHashes newCommit →
           p = NewHash (BadParentHash bc) ∧ BadParentHash bc ≠ nullSHA
           ∧ is_Some (CommitObject r' p).
Proof.
  intros Hold. unfold ReplaceCommit. rewrite Hold.
  destruct (match TreeObject r (NewHash EmptyTreeHash) with
            | Some _ => (r, NewHash EmptyTreeHash)
            | None => let '(r1, emptyTreeStr) := CreateEmptyTree r in
                      (r1, NewHash emptyTreeStr)
            end) as [r1 emptyTreeHash].
  match goal with
  | |- context [SetEncodedObject r1 (CommitObject_ ?c)] =>
      pose proof (staged_commit r1 c ("refs/replace/" ++ BadHash bc)) as Hs;
      destruct (SetEncodedObject r1 (CommitObject_ c)) as [r2 newHash];
      exists c
  end.
  destruct Hs as (Href & Hc & Hkeep). cbv zeta. split; [done|]. split; [done|].
  simpl. intros p Hp.
  destruct (String.eqb (BadParentHash bc) ""); simpl in Hp; [by inversion Hp|].
  destruct (String.eqb_spec (BadParentHash bc)
              "0000000000000000000000000000000000000000") as [|Hnz];
    simpl in Hp; [by inversion Hp|].
  destruct (CommitObject r1 (NewHash (BadParentHash bc))) eqn:E; [|by inversion Hp].
  apply list_elem_of_singleton in Hp as ->.
  split; [done|]. split; [done|]. apply Hkeep. by rewrite E.
Qed.

(** C6 (amended). For a flagged commit that can be loaded, [ReplaceCommit]
    stages a commit with the author, committer and message of the original
    and with the empty tree: the tree stored under [EmptyTreeHash] when there
    is one, otherwise an empty tree it stores itself.  The tree of the
    original commit plays no part. *)
Theorem ReplaceCommit_empty_tree (now : Z) (r : Repository) (bc : BadCommit)
    (oldCommit : Commit) :
  CommitObject r (NewHash (BadHash bc)) = Some oldCommit →
  let r' := ReplaceCommit now r bc in
  ∃ newCommit,
    refs r' !! ("refs/replace/" ++ BadHash bc)
      = Some (NewHashReference ("refs/replace/" ++ BadHash bc)
                (hashObject (CommitObject_ newCommit)))
    ∧ CommitObject r' (hashObject (CommitObject_ newCommit)) = Some newCommit
    ∧ Author newCommit = Author oldCommit
    ∧ Committer newCommit = Committer oldCommit
    ∧ Message newCommit = Message oldCommit
    ∧ TreeHash newCommit =
        match TreeObject r (NewHash EmptyTreeHash) with
        | Some _ => NewHash EmptyTreeHash
        | None => NewHash (hashObject (TreeObject_ emptyTree))
        end.
Proof.
  intros Hold. unfold ReplaceCommit. rewrite Hold.
  assert (∀ r1 emptyTreeHash,
            (match TreeObject r (NewHash EmptyTreeHash) with
             | Some _ => (r, NewHash EmptyTreeHash)
             | None => let '(r1, emptyTreeStr) := CreateEmptyTree r in
                       (r1, NewHash emptyTreeStr)
             end) = (r1, emptyTreeHash) →
            emptyTreeHash =
              match TreeObject r (NewHash EmptyTreeHash) with
              | Some _ => NewHash EmptyTreeHash
              | None => NewHash (hashObject (TreeObject_ emptyTree))
              end) as Htree.
  { intros r1 h. destruct (TreeObject r (NewHash EmptyTreeHash)); by intros [= <- <-]. }
  destruct (match TreeObject r (NewHash EmptyTreeHash) with
            | Some _ => (r, NewHash EmptyTreeHash)
            | None => let '(r1, emptyTreeStr) := CreateEmptyTree r in
                      (r1, NewHash emptyTreeStr)
            end) as [r1 emptyTreeHash] eqn:E.
  specialize (Htree r1 emptyTreeHash eq_refl).
  match goal with
  | |- context [SetEncodedObject r1 (CommitObject_ ?c)] =>
      pose proof (staged_commit r1 c ("refs/replace/" ++ BadHash bc)) as Hs;
      destruct (SetEncodedObject r1 (CommitObject_ c)) as [r2 newHash];
      exists c
  end.
  destruct Hs as (Href & Hc & _). cbv zeta. by repeat split.
Qed.

End ReplaceFacts.

Lemma ReplaceCommit_empty_tree_witness :
  ∃ newCommit,
    CommitObject
      (ReplaceCommit (hasher := Fixtures.fixtureHash) 0 Fixtures.nullParent Fixtures.flagged)
      (Fixtures.fixtureHash (CommitObject_ newCommit)) = Some newCommit
    ∧ TreeHash newCommit = EmptyTreeHash.
Proof.
  destruct (ReplaceCommit_empty_tree (hasher := Fixtures.fixtureHash) 0
              Fixtures.nullParent Fixtures.flagged
              (Fixtures.commit "7 work" (Fixtures.h40 "e") [ZeroHash]))
    as (newCommit & _ & Hc & _ & _ & _ & Htree).
  - vm_compute. reflexivity.
  - exists newCommit. split; [exact Hc|]. rewrite Htree. vm_compute. reflexivity.
Defined.

(** C6, as stated, fails: the flagged commit has a tree that loads and has
    no null entry, and the replacement staged for it has the empty tree
    instead, whatever the content hash. *)
Lemma ReplaceCommit_drops_sound_tree :
  (∃ old tree,
      CommitObject Fixtures.nullParent (NewHash (BadHash Fixtures.flagged)) = Some old
      ∧ TreeObject Fixtures.nullParent (TreeHash old) = Some tree
      ∧ Entries tree = [Fixtures.readme]
      ∧ EntryHash Fixtures.readme ≠ ZeroHash)
  ∧ ∀ (hasher : Hasher) (now : Z),
      ∃ newCommit,
        refs (ReplaceCommit now Fixtures.nullParent Fixtures.flagged)
          !! ("refs/replace/" ++ Fixtures.h40 "7")
          = Some (NewHashReference ("refs/replace/" ++ Fixtures.h40 "7")
                    (hashObject (CommitObject_ newCommit)))
        ∧ TreeHash newCommit = EmptyTreeHash
        ∧ TreeHash newCommit ≠ Fixtures.h40 "e".
Proof.
  split.
  - eexists _, _. split; [vm_compute; reflexivity|].
    split; [vm_compute; reflexivity|]. split; [reflexivity|]. by vm_compute.
  - intros hasher now.
    unfold ReplaceCommit.
    assert (CommitObject Fixtures.nullParent (NewHash (BadHash Fixtures.flagged))
            = Some (Fixtures.commit "7 work" (Fixtures.h40 "e") [ZeroHash])) as ->
      by (vm_compute; reflexivity).
    assert (TreeObject Fixtures.nullParent (NewHash EmptyTreeHash)
            = Some (mkTree [])) as -> by (vm_compute; reflexivity).
    match goal with
    | |- context [SetEncodedObject ?r1 (CommitObject_ ?c)] =>
        pose proof (staged_commit r1 c ("refs/replace/" ++ Fixtures.h40 "7")) as Hs;
        exists c
    end.
    cbv beta iota zeta in Hs |- *. unfold SetEncodedObject in Hs |- *.
    destruct Hs as (Href & _). split; [exact Href|].
    split; [vm_compute; reflexivity|]. by vm_compute.
Qed.

(** C5. A flagged commit that cannot be loaded: [ReplaceCommit] hands over
    to [createMinimalReplacement], which keeps whatever parent is recorded.
    Recorded with the null hash as parent, the commit staged under the
    replace reference has the null hash as its parent, whatever the content
    hash and the clock; recorded with a parent that is not in the store, the
    staged commit has that parent, which still does not load. *)
Theorem createMinimalReplacement_keeps_bad_parent :
  CommitObject Fixtures.orphan (NewHash (BadHash Fixtures.lost)) = None
  ∧ (∀ (hasher : Hasher) (now : Z),
      ∃ newCommit,
        refs (ReplaceCommit now Fixtures.orphan Fixtures.lost)
          !! ("refs/replace/" ++ Fixtures.h40 "9")
          = Some (NewHashReference ("refs/replace/" ++ Fixtures.h40 "9")
                    (hashObject (CommitObject_ newCommit)))
        ∧ CommitObject (ReplaceCommit now Fixtures.orphan Fixtures.lost)
            (hashObject (CommitObject_ newCommit)) = Some newCommit
        ∧ ParentHashes newCommit = [ZeroHash])
  ∧ (let r' := ReplaceCommit (hasher := Fixtures.fixtureHash) 0
                 Fixtures.orphan Fixtures.lostChild in
     ∃ newCommit,
       refs r' !! ("refs/replace/" ++ Fixtures.h40 "9")
         = Some (NewHashReference ("refs/replace/" ++ Fixtures.h40 "9")
                   (Fixtures.fixtureHash (CommitObject_ newCommit)))
       ∧ CommitObject r' (Fixtures.fixtureHash (CommitObject_ newCommit))
           = Some newCommit
       ∧ ParentHashes newCommit = [Fixtures.h40 "8"]
       ∧ CommitObject r' (Fixtures.h40 "8") = None).
Proof.
  split; [vm_compute; reflexivity|]. split.
  - intros hasher now. unfold ReplaceCommit.
    assert (CommitObject Fixtures.orphan (NewHash (BadHash Fixtures.lost)) = None) as ->
      by (vm_compute; reflexivity).
    destruct (createMinimalReplacement_staged now Fixtures.orphan Fixtures.lost)
      as (newCommit & Href & Hc & Hp).
    exists newCommit. split; [exact Href|]. split; [exact Hc|].
    rewrite Hp. vm_compute. reflexivity.
  - cbv zeta.
    exists (mkCommit (mkSignature "NSHA Tool" "nsha@fix.local" 0)
              (mkSignature "NSHA Tool" "nsha@fix.local" 0)
              "4 lost" EmptyTreeHash [Fixtures.h40 "8"]).
    repeat split; vm_compute; reflexivity.
Qed.

(** ** The tree fix *)

(** On an ordinary tree the null entry goes and the other line is handed to
    [git mktree] as it was listed. *)
Example newTreeHashFor_ordinary (mktree : string → option string) :
  newTreeHashFor (Some (lsTreeOutput Fixtures.ordinary)) None mktree
  = match mktree (lsTreeLine Fixtures.readme ++ String "010"%char "") with
    | Some out => NewTree (Strings.TrimSpace out)
    | None => MktreeFailed
    end.
Proof. reflexivity. Qed.

(** A tree that cannot be listed is replaced by the constant
    [EmptyTreeHash]. *)
Example newTreeHashFor_unreadable (mktree : string → option string) :
  newTreeHashFor None None mktree = NewTree EmptyTreeHash.
Proof. reflexivity. Qed.

(** C7. A tree that lists a file named with forty zeros next to an entry
    with the null hash: the scan counts both lines as null entries, no entry
    is left, and the tree is replaced by the empty tree although one of its
    entries has a sound hash. *)
Theorem newTreeHashFor_drops_sound_entry :
  filter (λ e, EntryHash e ≠ ZeroHash) (Entries Fixtures.corrupted)
    = [Fixtures.zerosNamed]
  ∧ scanTreeLines (lsTreeOutput Fixtures.corrupted) = ([], 2)
  ∧ ∀ mktree,
      newTreeHashFor (Some (lsTreeOutput Fixtures.corrupted)) None mktree
      = NewTree EmptyTreeHash.
Proof.
  split; [|split].
  - vm_compute. reflexivity.
  - vm_compute. reflexivity.
  - intros mktree. reflexivity.
Qed.

(** ** [FixMissingCommits] *)




Lemma fixReference_keyed r n : refs_keyed r → refs_keyed (fixReference r n).1.
Proof.
  intros Hk. unfold fixReference.
  destruct (String.eqb n "HEAD");
    repeat match goal with |- context [match ?x with _ => _ end] => destruct x end;
    simpl; auto using refs_keyed_SetReference, refs_keyed_RemoveReference.
Qed.

Lemma fixStep_live st n : (fixStep false st n).1 = (fixReference st.1 n).1.
Proof. unfold fixStep. by destruct (fixReference st.1 n). Qed.


Lemma fixLoop_snoc dryRun st l n :
  foldl (fixStep dryRun) st (l ++ [n]) = fixStep dryRun (foldl (fixStep dryRun) st l) n.
Proof. by rewrite foldl_app. Qed.




Lemma fixLoop_keyed st l :
  refs_keyed st.1 → refs_keyed (foldl (fixStep false) st l).1.
Proof.
  intros Hk. induction l as [|n l IH] using rev_ind; [done|].
  rewrite fixLoop_snoc, fixStep_live. by apply fixReference_keyed.
Qed.












(** A run with a sound branch, evaluated: [HEAD] is pointed at the branch,
    the tag at the branch tip. *)
Example FixMissingCommits_dangling :
  let r' := (FixMissingCommits Fixtures.dangling false).1 in
  refs r' !! "HEAD" = Some (NewSymbolicReference "HEAD" "refs/heads/good")
  ∧ refs r' !! "refs/heads/good"
    = Some (NewHashReference "refs/heads/good" (Fixtures.h40 "a"))
  ∧ refs r' !! "refs/tags/v1"
    = Some (NewHashReference "refs/tags/v1" (Fixtures.h40 "a"))
  ∧ (FixMissingCommits Fixtures.dangling false).2 = 2.
Proof. repeat split; vm_compute; reflexivity. Qed.

(** A run without any branch, evaluated: [HEAD] stays, the tag goes. *)
Example FixMissingCommits_hopeless :
  let r' := (FixMissingCommits Fixtures.hopeless false).1 in
  refs r' !! "HEAD" = Some (NewHashReference "HEAD" (Fixtures.h40 "9"))
  ∧ refs r' !! "refs/tags/v1" = None
  ∧ (FixMissingCommits Fixtures.hopeless false).2 = 1.
Proof. repeat split; vm_compute; reflexivity. Qed.

(** * Further properties of the package *)

(** ** The rewrite loop *)

Section RewriteLoop.
Context {hasher : Hasher}.

Lemma rewriteCommit_refs r h cm : refs (rewriteCommit r h cm).1 = refs r.
Proof.
  unfold rewriteCommit.
  destruct (cm !! h); [done|]. destruct (CommitObject r h); [|done].
  by destruct (needsRewrite cm _).
Qed.

Lemma rewriteCommit_objects r h cm k o :
  objects (rewriteCommit r h cm).1 !! k = Some o →
  objects r !! k = Some o
  ∨ ∃ c, o = CommitObject_ c ∧ hashObject o = k ∧ (rewriteCommit r h cm).2 = k.
Proof.
  unfold rewriteCommit.
  destruct (cm !! h); [by auto|]. destruct (CommitObject r h); [|by auto].
  destruct (needsRewrite cm _); [|by auto].
  unfold SetEncodedObject; simpl. rewrite lookup_insert.
  case_decide as Hk; [|by auto]. intros [= <-]. right. by eexists.
Qed.

Lemma rewriteCommit_keeps_commits r h cm k :
  is_Some (CommitObject r k) → is_Some (CommitObject (rewriteCommit r h cm).1 k).
Proof.
  unfold rewriteCommit.
  destruct (cm !! h); [done|]. destruct (CommitObject r h); [|done].
  destruct (needsRewrite cm _); [|done].
  unfold CommitObject, SetEncodedObject; simpl. rewrite lookup_insert.
  by case_decide.
Qed.

Lemma rewriteCommit_result r (h : Hash) cm :
  (rewriteCommit r h cm).2 = default h (cm !! h)
  ∨ (cm !! h = None ∧ is_Some (CommitObject (rewriteCommit r h cm).1 (rewriteCommit r h cm).2)).
Proof.
  unfold rewriteCommit.
  destruct (cm !! h) eqn:E; [by left|]. destruct (CommitObject r h); [|by left].
  destruct (needsRewrite cm _); [|by left].
  right. split; [done|]. rewrite CommitObject_SetEncodedObject_eq. by eexists.
Qed.

Lemma rewriteStep_fst st h : (rewriteStep st h).1 = (rewriteCommit st.1 h st.2).1.
Proof.
  unfold rewriteStep. destruct (rewriteCommit st.1 h st.2) as [r' newHash].
  by destruct (String.eqb newHash h).
Qed.

Lemma rewriteStep_snd st h :
  (rewriteStep st h).2 =
    if String.eqb (rewriteCommit st.1 h st.2).2 h then st.2
    else <[h := (rewriteCommit st.1 h st.2).2]> st.2.
Proof.
  unfold rewriteStep. destruct (rewriteCommit st.1 h st.2) as [r' newHash].
  simpl. by destruct (String.eqb newHash h).
Qed.

Lemma rewriteStep_keeps_entry st (h k : Hash) v :
  st.2 !! k = Some v → (rewriteStep st h).2 !! k = Some v.
Proof.
  intros Hk. rewrite rewriteStep_snd. destruct st as [r0 cm]. simpl in *.
  destruct (String.eqb _ h); [done|].
  rewrite lookup_insert. case_decide as Hhk; [|done]. subst k.
  unfold rewriteCommit. by rewrite Hk.
Qed.

Lemma rewriteStep_new_entry st (h k : Hash) v :
  (rewriteStep st h).2 !! k = Some v →
  st.2 !! k = Some v
  ∨ (k = h ∧ st.2 !! k = None ∧ v ≠ k ∧ is_Some (CommitObject (rewriteStep st h).1 v)).
Proof.
  rewrite rewriteStep_snd, rewriteStep_fst. destruct st as [r0 cm]. simpl.
  destruct (String.eqb_spec (rewriteCommit r0 h cm).2 h) as [|Hne]; [by left|].
  rewrite lookup_insert. case_decide as Hhk; [|by left]. subst k. intros [= <-].
  destruct (rewriteCommit_result r0 h cm) as [Hres|[Hnone Hc]].
  - destruct (cm !! h) eqn:E; simpl in Hres; [left; by rewrite Hres|congruence].
  - right. by repeat split.
Qed.

(** X1. Through the loop "Rewrite commits" of [FilterRepo] the overlay only
    grows: no entry is changed or removed, a new entry is keyed by one of the
    walked hashes, maps it to a different hash, and that hash loads as a
    commit at the end.  The references are not touched, a commit that loaded
    still loads, and an object that was not there before is a commit filed
    under its own content hash. *)
Theorem rewriteLoop_overlay_grows (r : Repository) (commitMap : gmap string Hash)
    (commits : list Hash) :
  let st' := foldl rewriteStep (r, commitMap) commits in
  (∀ (k : Hash) v, commitMap !! k = Some v → st'.2 !! k = Some v)
  ∧ (∀ (k : Hash) v, st'.2 !! k = Some v →
            commitMap !! k = Some v
            ∨ (k ∈ commits ∧ commitMap !! k = None ∧ v ≠ k
               ∧ is_Some (CommitObject st'.1 v)))
  ∧ refs st'.1 = refs r
  ∧ (∀ k, is_Some (CommitObject r k) → is_Some (CommitObject st'.1 k))
  ∧ (∀ k o, objects st'.1 !! k = Some o →
            objects r !! k = Some o ∨ ∃ c, o = CommitObject_ c ∧ hashObject o = k).
Proof.
  cbv zeta. induction commits as [|h l IH] using rev_ind.
  { simpl. repeat split; auto. }
  rewrite foldl_app. cbn [foldl].
  destruct IH as (Hkeep & Hnew & Hrefs & Hcommits & Hobjs).
  set (st := foldl rewriteStep (r, commitMap) l) in *.
  split; [|split; [|split; [|split]]].
  - intros k v Hk. by apply rewriteStep_keeps_entry, Hkeep.
  - intros k v Hk. apply rewriteStep_new_entry in Hk as [Hk|(-> & Hnone & Hne & Hc)].
    + destruct (Hnew k v Hk) as [?|(Hin & ? & ? & Hc)]; [by left|].
      right. split; [apply elem_of_app; by left|].
      repeat split; try done. rewrite rewriteStep_fst.
      by apply rewriteCommit_keeps_commits.
    + right. split; [apply elem_of_app; right; by left|].
      repeat split; try done.
      destruct (commitMap !! h) eqn:E; [|done].
      by rewrite (Hkeep _ _ E) in Hnone.
  - by rewrite rewriteStep_fst, rewriteCommit_refs.
  - intros k Hk. rewrite rewriteStep_fst. by apply rewriteCommit_keeps_commits, Hcommits.
  - intros k o Hk. rewrite rewriteStep_fst in Hk.
    apply rewriteCommit_objects in Hk as [Hk|(c & -> & Hh & _)]; [by apply Hobjs|].
    right. by exists c.
Qed.

End RewriteLoop.

Section RewriteLoopFold.
Context {hasher : Hasher}.




End RewriteLoopFold.

(** ** Replace references, from the planner to the rewrite engine *)

Lemma getReplaceRefs_fold_sound l (m : gmap string string) old new :
  foldl (λ replaceMap ref,
           let refName := RefName ref in
           if isReplaceRef refName
           then <[substring 13 (String.length refName - 13) refName := RefHash ref]> replaceMap
           else replaceMap) m l !! old = Some new →
  m !! old = Some new
  ∨ ∃ ref, ref ∈ l ∧ isReplaceRef (RefName ref) = true
           ∧ replaceKey (RefName ref) = old ∧ RefHash ref = new.
Proof.
  revert m. induction l as [|ref l IH]; intros m Hl; [by left|].
  simpl in Hl. apply IH in Hl as [Hl|(ref' & Hin & Hrest)].
  - destruct (isReplaceRef (RefName ref)) eqn:E; [|by left].
    rewrite lookup_insert in Hl. case_decide as Hk; [|by left].
    injection Hl as <-. right. exists ref. split; [by left|done].
  - right. exists ref'. split; [by right|done].
Qed.


Lemma getReplaceRefs_sound r old new :
  getReplaceRefs r !! old = Some new →
  ∃ ref, ref ∈ References r ∧ isReplaceRef (RefName ref) = true
         ∧ replaceKey (RefName ref) = old ∧ RefHash ref = new.
Proof.
  intros Hl. apply getReplaceRefs_fold_sound in Hl as [Hl|Hl]; [|done].
  by rewrite lookup_empty in Hl.
Qed.


Section InitialCommitMap.
Context {runtime : GoRuntime}.



End InitialCommitMap.

Section EndToEnd.
Context {hasher : Hasher} {runtime : GoRuntime}.



End EndToEnd.


(** ** What the commit walk collects *)

Section WalkSpec.
Variable r : Repository.

Lemma closedIn_mono (V1 V2 : gset string) x :
  V1 ⊆ V2 → closedIn r V1 x → closedIn r V2 x.
Proof. intros Hsub Hc c p Hx Hp. apply Hsub. by eapply Hc. Qed.

Lemma walkCommitsFuel_spec fuel (h : Hash) (V V' : gset string) e :
  walkCommitsFuel fuel r h V = Some (V', e) →
  V ⊆ V' ∧ h ∈ V'
  ∧ ∀ x, x ∈ V' → x ∉ V → closedIn r V' x ∧ reachable r h x.
Proof.
  revert h V V' e. induction fuel as [|fuel IH]; intros h V V' e Hw; [done|].
  rewrite walkCommitsFuel_S in Hw.
  destruct (decide (h ∈ V)) as [Hin|Hfresh].
  { injection Hw as <- <-. split; [done|]. split; [done|]. by intros x ? ?. }
  destruct (CommitObject r h) as [c|] eqn:Hc.
  2: { injection Hw as <- <-. split; [apply union_subseteq_r|].
       split; [apply elem_of_union; left; by apply elem_of_singleton|].
       intros x [Hx|Hx]%elem_of_union Hn; [|done].
       apply elem_of_singleton in Hx as ->. split; [|constructor].
       intros c' p Hc'. congruence. }
  assert (∀ ps (V0 V1 : gset string),
             walkParents fuel r (Some V0) ps = Some V1 →
             V0 ⊆ V1 ∧ (∀ p, p ∈ ps → p ∈ V1)
             ∧ ∀ x, x ∈ V1 → x ∉ V0 →
                    closedIn r V1 x ∧ ∃ p, p ∈ ps ∧ reachable r p x) as Hloop.
  { induction ps as [|p ps IHps]; intros V0 V1 Hps.
    { injection Hps as <-. split; [done|]. split; [by intros ? ?%elem_of_nil|].
      by intros x ? ?. }
    rewrite walkParents_cons in Hps.
    destruct (walkCommitsFuel fuel r p V0) as [[Vp ep]|] eqn:Hp;
      [|by rewrite walkParents_None in Hps].
    simpl in Hps. apply IH in Hp as (Hsub0 & Hpin & Hnew0).
    apply IHps in Hps as (Hsub1 & Hpsin & Hnew1).
    split; [by transitivity Vp|]. split.
    - intros q [->|Hq]%elem_of_cons; [by apply Hsub1|by apply Hpsin].
    - intros x Hx Hn. destruct (decide (x ∈ Vp)) as [Hxp|Hxp].
      + destruct (Hnew0 x Hxp Hn) as [Hcl Hre]. split.
        * by eapply closedIn_mono.
        * exists p. split; [by left|done].
      + destruct (Hnew1 x Hx Hxp) as [Hcl (q & Hq & Hre)]. split; [done|].
        exists q. split; [by right|done]. }
  destruct (walkParents fuel r _ (ParentHashes c)) as [V1|] eqn:Hps; [|done].
  simpl in Hw. injection Hw as <- <-.
  apply Hloop in Hps as (Hsub & Hpsin & Hnew).
  assert (h ∈ V1) as Hh by (apply Hsub, elem_of_union; left; by apply elem_of_singleton).
  split; [transitivity ({[h]} ∪ V); [apply union_subseteq_r|done]|].
  split; [done|].
  intros x Hx Hn. destruct (decide (x = h)) as [->|Hne].
  - split; [|constructor]. intros c' p Hc' Hp.
    rewrite Hc in Hc'. injection Hc' as <-. by apply Hpsin.
  - destruct (Hnew x Hx) as [Hcl (p & Hp & Hre)].
    + intros [Hxh|HxV]%elem_of_union; [by apply elem_of_singleton in Hxh|done].
    + split; [done|]. by eapply reach_step.
Qed.

Lemma walkCommits_spec (h : Hash) (V : gset string) :
  V ⊆ (walkCommits r h V).1 ∧ h ∈ (walkCommits r h V).1
  ∧ ∀ x, x ∈ (walkCommits r h V).1 → x ∉ V →
         closedIn r (walkCommits r h V).1 x ∧ reachable r h x.
Proof.
  pose proof (walkCommits_fuel r h V) as Hf.
  destruct (walkCommits r h V) as [V' e]. by apply walkCommitsFuel_spec in Hf.
Qed.

Lemma walkStarts_spec (starts : list Hash) (V : gset string) :
  let S := foldl (λ visited startHash, (walkCommits r startHash visited).1) V starts in
  V ⊆ S ∧ (∀ s, s ∈ starts → s ∈ S)
  ∧ ∀ x, x ∈ S → x ∉ V → closedIn r S x ∧ ∃ s, s ∈ starts ∧ reachable r s x.
Proof.
  cbv zeta. revert V. induction starts as [|s starts IH]; intros V.
  { simpl. split; [done|]. split; [by intros ? ?%elem_of_nil|]. by intros x ? ?. }
  simpl. destruct (walkCommits_spec s V) as (Hsub0 & Hs & Hnew0).
  destruct (IH (walkCommits r s V).1) as (Hsub1 & Hin1 & Hnew1).
  split; [by etransitivity|]. split.
  - intros q [->|Hq]%elem_of_cons; [by apply Hsub1|by apply Hin1].
  - intros x Hx Hn. destruct (decide (x ∈ (walkCommits r s V).1)) as [Hx0|Hx0].
    + destruct (Hnew0 x Hx0 Hn) as [Hcl Hre]. split.
      * by eapply closedIn_mono.
      * exists s. split; [by left|done].
    + destruct (Hnew1 x Hx Hx0) as [Hcl (q & Hq & Hre)]. split; [done|].
      exists q. split; [by right|done].
Qed.

End WalkSpec.

(** X3. The set [getAllCommitsTopological] walks is exactly the set of
    hashes that can be reached from the hashes of the branch and tag
    references by following parents of commits that load; it contains the
    hashes at which the walk stops because nothing loads there. *)
Theorem commitSet_reachable (r : Repository) (x : Hash) :
  x ∈ commitSet r ↔ ∃ s, s ∈ startCommits r ∧ reachable r s x.
Proof.
  unfold commitSet.
  destruct (walkStarts_spec r (startCommits r) ∅) as (_ & Hstarts & Hnew).
  split.
  - intros Hx. destruct (Hnew x Hx) as [_ Hre]; [apply not_elem_of_empty|done].
  - intros (s & Hs & Hre). apply Hstarts in Hs.
    induction Hre as [h|h c p y Hc Hp Hre IH]; [done|].
    apply IH. destruct (Hnew h Hs) as [Hcl _]; [apply not_elem_of_empty|].
    by eapply Hcl.
Qed.

(** ** The sort keeps what the walk collected *)

Lemma sink_perm {A} (less : A → A → bool) rpre x :
  Sort.sink less rpre x ≡ₚ x :: rpre.
Proof.
  induction rpre as [|y rest IH]; simpl; [done|].
  destruct (less x y); [|done]. rewrite IH. apply Permutation_swap.
Qed.

Lemma sink_fold_perm {A} (less : A → A → bool) l acc :
  foldl (Sort.sink less) acc l ≡ₚ acc ++ l.
Proof.
  revert acc. induction l as [|x l IH]; intros acc; simpl.
  - by rewrite app_nil_r.
  - rewrite IH, sink_perm. simpl. apply Permutation_middle.
Qed.

Lemma insertionSort_func_perm {A} (less : A → A → bool) l :
  Sort.insertionSort_func less l ≡ₚ l.
Proof.
  unfold Sort.insertionSort_func.
  rewrite <- Permutation_rev. apply (sink_fold_perm less l []).
Qed.

(** X4. With at most twelve hashes collected by the walk,
    [getAllCommitsTopological] returns each of them exactly once, whatever
    order the map iteration yields them in: the comparison it sorts with
    cannot make the sort lose or repeat a commit. *)
Theorem getAllCommitsTopological_perm {runtime : GoRuntime} (r : Repository) :
  (size (commitSet r) ≤ 12)%nat →
  getAllCommitsTopological r ≡ₚ elements (commitSet r)
  ∧ NoDup (getAllCommitsTopological r).
Proof.
  intros Hsize.
  assert (getAllCommitsTopological r ≡ₚ elements (commitSet r)) as Hperm.
  { unfold getAllCommitsTopological, sort_Slice.
    assert (length (rangeMap (commitSet r)) = size (commitSet r)) as Hlen
      by (by rewrite rangeMap_perm).
    rewrite Hlen. destruct (Nat.leb_spec (size (commitSet r)) 12) as [_|?]; [|lia].
    rewrite insertionSort_func_perm. apply rangeMap_perm. }
  split; [done|]. rewrite Hperm. apply NoDup_elements.
Qed.

Lemma getAllCommitsTopological_perm_witness :
  getAllCommitsTopological
    (runtime := Fixtures.runtimeFirst [Fixtures.h40 "a"; Fixtures.h40 "c"])
    Fixtures.chain
    ≡ₚ elements (commitSet Fixtures.chain)
  ∧ NoDup (getAllCommitsTopological
             (runtime := Fixtures.runtimeFirst [Fixtures.h40 "a"; Fixtures.h40 "c"])
             Fixtures.chain).
Proof.
  apply (getAllCommitsTopological_perm
           (runtime := Fixtures.runtimeFirst [Fixtures.h40 "a"; Fixtures.h40 "c"])).
  vm_compute. lia.
Defined.

(** ** Replace references: names *)


Lemma isReplaceRef_prefix n :
  isReplaceRef n = true → String.prefix "refs/replace/" n = true.
Proof.
  unfold isReplaceRef. intros [_ Heq%String.eqb_eq]%andb_true_iff.
  by apply prefix_correct.
Qed.






(** ** [CleanupReplaceRefs] *)

Lemma sliceTo_replace_prefix n :
  match sliceTo n 13 with
  | Some head => String.eqb head "refs/replace/" = String.prefix "refs/replace/" n
  | None => (String.length n < 13)%nat
  end.
Proof.
  unfold sliceTo. destruct (Nat.leb_spec 13 (String.length n)) as [Hle|Hlt]; [|done].
  destruct (String.prefix "refs/replace/" n) eqn:Hp.
  - apply prefix_correct in Hp. simpl in Hp. rewrite Hp. done.
  - apply String.eqb_neq. intros Heq.
    assert (String.prefix "refs/replace/" n = true) by (by apply prefix_correct).
    congruence.
Qed.

Lemma sliceTo_Some_length n k head :
  sliceTo n k = Some head → (k ≤ String.length n)%nat.
Proof. unfold sliceTo. by destruct (Nat.leb_spec k (String.length n)). Qed.

Lemma collectReplaceRef_fold l acc :
  match foldl collectReplaceRef acc l with
  | Some names =>
      ∃ names0, acc = Some names0
        ∧ names = (names0 ++ filter (λ n, String.prefix "refs/replace/" n = true)
                                    (RefName <$> l))%list
        ∧ ∀ ref, ref ∈ l → (13 ≤ String.length (RefName ref))%nat
  | None => acc = None ∨ ∃ ref, ref ∈ l ∧ (String.length (RefName ref) < 13)%nat
  end.
Proof.
  revert acc. induction l as [|ref l IH]; intros acc.
  { simpl. destruct acc as [names0|]; [|by left].
    exists names0. rewrite app_nil_r. split; [done|]. split; [done|].
    by intros ? ?%elem_of_nil. }
  simpl. specialize (IH (collectReplaceRef acc ref)).
  pose proof (sliceTo_replace_prefix (RefName ref)) as Hslice.
  destruct (foldl collectReplaceRef (collectReplaceRef acc ref) l) as [names|].
  - destruct IH as (names1 & Hstep & -> & Hlen).
    unfold collectReplaceRef in Hstep.
    destruct acc as [names0|]; [|done]. simpl in Hstep.
    destruct (sliceTo (RefName ref) 13) as [head|] eqn:Hs; [|done].
    simpl in Hstep. injection Hstep as <-. rewrite Hslice.
    exists names0. split; [done|]. split.
    + change (list_fmap Reference string RefName l) with (RefName <$> l).
      rewrite filter_cons.
      destruct (decide (String.prefix "refs/replace/" (RefName ref) = true)) as [Hp|Hp].
      * rewrite Hp. by rewrite <- app_assoc.
      * apply not_true_is_false in Hp. by rewrite Hp.
    + intros ref' [->|Hin]%elem_of_cons; [|by apply Hlen].
      by eapply sliceTo_Some_length.
  - destruct IH as [Hstep|(ref' & Hin & Hlt)].
    + unfold collectReplaceRef in Hstep.
      destruct acc as [names0|]; [|by left]. simpl in Hstep.
      destruct (sliceTo (RefName ref) 13) as [head|] eqn:Hs; [done|].
      right. exists ref. split; [by left|done].
    + right. exists ref'. split; [by right|done].
Qed.

Lemma foldl_RemoveReference_objects names r :
  objects (foldl RemoveReference r names) = objects r.
Proof. revert r. induction names as [|n names IH]; intros r; [done|]. simpl. by rewrite IH. Qed.

Lemma foldl_RemoveReference_lookup names r n :
  refs (foldl RemoveReference r names) !! n =
    if decide (n ∈ names) then None else refs r !! n.
Proof.
  revert r. induction names as [|k names IH]; intros r.
  { destruct (decide (n ∈ [])) as [Hin|_]; [by inversion Hin|done]. }
  cbn [foldl]. rewrite IH. unfold RemoveReference; simpl.
  destruct (decide (n ∈ names)) as [Hin|Hnin];
    destruct (decide (n ∈ k :: names)) as [Hin'|Hnin']; try done.
  - exfalso. apply Hnin'. by right.
  - apply elem_of_cons in Hin' as [->|?]; [|done]. apply lookup_delete_eq.
  - rewrite lookup_delete_ne; [done|]. intros ->. apply Hnin'. by left.
Qed.

Lemma foldl_RemoveReference_keyed names r :
  refs_keyed r → refs_keyed (foldl RemoveReference r names).
Proof.
  revert r. induction names as [|k names IH]; intros r Hk; [done|].
  simpl. by apply IH, refs_keyed_RemoveReference.
Qed.

Lemma CleanupReplaceRefs_None r :
  CleanupReplaceRefs r = None ↔
  ∃ ref, ref ∈ References r ∧ (String.length (RefName ref) < 13)%nat.
Proof.
  unfold CleanupReplaceRefs.
  pose proof (collectReplaceRef_fold (References r) (Some [])) as Hfold.
  destruct (foldl collectReplaceRef (Some []) (References r)) as [names|]; simpl.
  - split; [done|]. intros (ref & Hin & Hlt).
    destruct Hfold as (_ & _ & _ & Hlen). specialize (Hlen ref Hin). lia.
  - split; [|done]. intros _. by destruct Hfold.
Qed.

Lemma CleanupReplaceRefs_Some r r' :
  refs_keyed r → CleanupReplaceRefs r = Some r' →
  refs_keyed r' ∧ objects r' = objects r
  ∧ ∀ n, refs r' !! n =
         if String.prefix "refs/replace/" n then None else refs r !! n.
Proof.
  intros Hk. unfold CleanupReplaceRefs.
  pose proof (collectReplaceRef_fold (References r) (Some [])) as Hfold.
  destruct (foldl collectReplaceRef (Some []) (References r)) as [names|]; [|done].
  simpl. intros [= <-]. destruct Hfold as (names0 & [= <-] & -> & _). simpl.
  split; [by apply foldl_RemoveReference_keyed|].
  split; [apply foldl_RemoveReference_objects|].
  intros n. rewrite foldl_RemoveReference_lookup.
  destruct (String.prefix "refs/replace/" n) eqn:Hp.
  - destruct (decide _) as [|Hnin]; [done|].
    destruct (refs r !! n) as [ref|] eqn:Href; [|done].
    exfalso. apply Hnin. apply list_elem_of_filter. split; [done|].
    apply list_elem_of_fmap. exists ref. split; [by rewrite (Hk _ _ Href)|].
    apply elem_of_References. by exists n.
  - destruct (decide _) as [Hin|]; [|done].
    apply list_elem_of_filter in Hin as [? _]. congruence.
Qed.

(** X5. [CleanupReplaceRefs] slices thirteen bytes off every reference name
    before comparing: it panics exactly when some reference has a name
    shorter than thirteen bytes ([HEAD], for one), and then nothing is
    removed.  When it returns, the objects are untouched, every reference
    whose name starts with [refs/replace/] is gone and every other reference
    is as it was. *)
Theorem CleanupReplaceRefs_spec (r : Repository) :
  (CleanupReplaceRefs r = None ↔
   ∃ ref, ref ∈ References r ∧ (String.length (RefName ref) < 13)%nat)
  ∧ (refs_keyed r → ∀ r',
       CleanupReplaceRefs r = Some r' →
       objects r' = objects r
       ∧ ∀ n, refs r' !! n =
              if String.prefix "refs/replace/" n then None else refs r !! n).
Proof.
  split; [apply CleanupReplaceRefs_None|].
  intros Hk r' Hsome.
  by destruct (CleanupReplaceRefs_Some r r' Hk Hsome) as (_ & ? & ?).
Qed.

Lemma CleanupReplaceRefs_spec_witness :
  CleanupReplaceRefs Fixtures.tagged = None
  ∧ ∃ r', CleanupReplaceRefs Fixtures2.headless = Some r'
          ∧ refs r' !! ("refs/replace/" ++ Fixtures.h40 "a") = None
          ∧ refs r' !! "refs/heads/main"
            = Some (NewHashReference "refs/heads/main" (Fixtures.h40 "c")).
Proof.
  split.
  - apply (proj1 (CleanupReplaceRefs_spec Fixtures.tagged)).
    exists (NewSymbolicReference "HEAD" "refs/heads/main"). split.
    + apply elem_of_References. exists "HEAD". vm_compute. reflexivity.
    + vm_compute. lia.
  - destruct (CleanupReplaceRefs Fixtures2.headless) as [r'|] eqn:E;
      [|by vm_compute in E].
    exists r'. split; [done|].
    destruct (proj2 (CleanupReplaceRefs_spec Fixtures2.headless)) with r'
      as [_ Hrefs]; [refine (bool_decide_unpack _ _); vm_compute; exact I|done|].
    split; rewrite Hrefs; vm_compute; reflexivity.
Defined.

(** X6. After [CleanupReplaceRefs] has returned, there is nothing left for
    the rewrite engine: [FilterRepo] fails with its "no replace refs found"
    error. *)
Theorem FilterRepo_after_cleanup {hasher : Hasher} {runtime : GoRuntime}
    (r r' : Repository) :
  refs_keyed r → CleanupReplaceRefs r = Some r' →
  FilterRepo r' = Err "no replace refs found - nothing to rewrite".
Proof.
  intros Hk Hsome.
  destruct (CleanupReplaceRefs_Some r r' Hk Hsome) as (Hk' & _ & Hrefs).
  assert (getReplaceRefs r' = ∅) as Hempty.
  { apply map_eq. intros old. rewrite lookup_empty.
    destruct (getReplaceRefs r' !! old) as [new|] eqn:E; [|done].
    apply getReplaceRefs_sound in E as (ref & Hin & Hrep & _).
    apply elem_of_References in Hin as [k Hkref].
    pose proof (Hk' _ _ Hkref) as Hname. subst k.
    rewrite Hrefs, (isReplaceRef_prefix _ Hrep) in Hkref. done. }
  unfold FilterRepo. by rewrite Hempty.
Qed.

Lemma FilterRepo_after_cleanup_witness :
  ∃ r', CleanupReplaceRefs Fixtures2.headless = Some r'
        ∧ FilterRepo (hasher := Fixtures.fixtureHash)
            (runtime := Fixtures.runtimeFirst []) r'
          = Err "no replace refs found - nothing to rewrite".
Proof.
  destruct (CleanupReplaceRefs Fixtures2.headless) as [r'|] eqn:E;
    [|by vm_compute in E].
  exists r'. split; [done|].
  apply (FilterRepo_after_cleanup (hasher := Fixtures.fixtureHash)
           (runtime := Fixtures.runtimeFirst []) Fixtures2.headless r').
  - refine (bool_decide_unpack _ _). vm_compute. exact I.
  - exact E.
Defined.

(** ** From the planner to the rewrite engine *)

Section PlannerRoundTrip.
Context {hasher : Hasher}.



End PlannerRoundTrip.


(** ** [FixMissingCommits]: what is left afterwards *)



Lemma refsToFix_elem r n :
  n ∈ refsToFix r →
  ∃ ref, ref ∈ References r ∧ RefName ref = n ∧ CommitObject r (RefHash ref) = None.
Proof.
  unfold refsToFix. rewrite list_elem_of_omap. intros (ref & Hin & Hf).
  exists ref. destruct (CommitObject r (RefHash ref)); [done|].
  by injection Hf as <-.
Qed.








(** * [FindBadCommits] and what it hands on *)

Section FindBadCommitsFacts.
Context {runtime : GoRuntime} {layout : TimeFormat}.

Lemma collectBadCommits_lookup r l (m0 : gmap string BadCommit) (k : string) bc :
  foldl (collectBadCommit r) m0 l !! k = Some bc ↔
    m0 !! k = Some bc
    ∨ (m0 !! k = None
       ∧ (∃ issue, issue ∈ l ∧ handled issue = true ∧ issueCommitHash issue = k)
       ∧ k ≠ "" ∧ k ≠ nullSHA
       ∧ ∃ commit, CommitObject r (NewHash k) = Some commit
                   ∧ bc = newBadCommit k commit).
Proof.
  revert m0. induction l as [|issue l IH]; intros m0; simpl.
  - split; [by left|]. intros [?|(_ & (i & Hi & _) & _)]; [done|by inversion Hi].
  - rewrite IH. clear IH. unfold collectBadCommit.
    destruct (handled issue) eqn:Hh.
    2:{ split; (intros [?|(Hn & (i & Hi & Hhi & Hk) & Hrest)]; [by left|right]).
        - split; [done|]. split; [|done]. exists i. split; [by right|done].
        - split; [done|]. split; [|done].
          apply elem_of_cons in Hi as [->|Hi]; [congruence|]. by exists i. }
    cbv zeta.
    destruct (String.eqb_spec (issueCommitHash issue) "") as [He|He]; simpl.
    { split; (intros [?|(Hn & (i & Hi & Hhi & Hk) & Hrest)]; [by left|right]).
      - split; [done|]. split; [|done]. exists i. split; [by right|done].
      - split; [done|]. split; [|done].
        apply elem_of_cons in Hi as [->|Hi]; [|by exists i].
        destruct Hrest as (Hne & _). congruence. }
    destruct (String.eqb_spec (issueCommitHash issue) nullSHA) as [Hz|Hz].
    { split; (intros [?|(Hn & (i & Hi & Hhi & Hk) & Hrest)]; [by left|right]).
      - split; [done|]. split; [|done]. exists i. split; [by right|done].
      - split; [done|]. split; [|done].
        apply elem_of_cons in Hi as [->|Hi]; [|by exists i].
        destruct Hrest as (_ & Hne & _). congruence. }
    destruct (m0 !! issueCommitHash issue) as [bc0|] eqn:Hm0.
    { split; (intros [?|(Hn & (i & Hi & Hhi & Hk) & Hrest)]; [by left|right]).
      - split; [done|]. split; [|done]. exists i. split; [by right|done].
      - split; [done|]. split; [|done].
        apply elem_of_cons in Hi as [->|Hi]; [|by exists i]. congruence. }
    destruct (CommitObject r (NewHash (issueCommitHash issue))) as [commit|] eqn:Hc.
    2:{ split; (intros [?|(Hn & (i & Hi & Hhi & Hk) & Hrest)]; [by left|right]).
        - split; [done|]. split; [|done]. exists i. split; [by right|done].
        - split; [done|]. split; [|done].
          apply elem_of_cons in Hi as [->|Hi]; [|by exists i].
          destruct Hrest as (_ & _ & c & Hc' & _). congruence. }
    destruct (decide (k = issueCommitHash issue)) as [->|Hk].
    + rewrite lookup_insert_eq. split.
      * intros [[= <-]|(? & _)]; [|done]. right.
        split; [done|]. split; [exists issue; split; [by left|done]|].
        split; [done|]. split; [done|]. by exists commit.
      * intros [?|(_ & _ & _ & _ & c & Hc' & ->)]; [congruence|].
        left. congruence.
    + rewrite lookup_insert_ne by done.
      split; (intros [?|(Hn & (i & Hi & Hhi & Hki) & Hrest)]; [by left|right]).
      * split; [done|]. split; [|done]. exists i. split; [by right|done].
      * split; [done|]. split; [|done].
        apply elem_of_cons in Hi as [->|Hi]; [done|by exists i].
Qed.

Lemma badCommitsMap_lookup output r (k : string) bc :
  badCommitsMap output r !! k = Some bc ↔
    (∃ issue, issue ∈ RunFsck output r ∧ handled issue = true
              ∧ issueCommitHash issue = k)
    ∧ k ≠ "" ∧ k ≠ nullSHA
    ∧ ∃ commit, CommitObject r (NewHash k) = Some commit
                ∧ bc = newBadCommit k commit.
Proof.
  unfold badCommitsMap. rewrite collectBadCommits_lookup, lookup_empty.
  split; [by intros [?|(_ & ?)]|]. intros ?. by right.
Qed.

Lemma elem_of_FindBadCommits output r bc :
  bc ∈ FindBadCommits output r ↔ ∃ k : string, badCommitsMap output r !! k = Some bc.
Proof.
  unfold FindBadCommits. cbv zeta. rewrite list_elem_of_omap. split.
  - intros (k & _ & Hk). by exists k.
  - intros (k & Hk). exists k. split; [|done].
    rewrite rangeMap_perm, elem_of_elements. apply elem_of_dom.
    exists bc. exact Hk.
Qed.

Lemma FindBadCommits_hashes output r :
  BadHash <$> FindBadCommits output r = rangeMap (dom (badCommitsMap output r)).
Proof.
  unfold FindBadCommits. cbv zeta.
  assert (∀ k, k ∈ rangeMap (dom (badCommitsMap output r)) →
               ∃ bc, badCommitsMap output r !! k = Some bc ∧ BadHash bc = k) as Hall.
  { intros k Hk. rewrite rangeMap_perm, elem_of_elements in Hk.
    apply elem_of_dom in Hk as [bc Hbc]. exists bc. split; [done|].
    apply badCommitsMap_lookup in Hbc as (_ & _ & _ & c & _ & ->). done. }
  induction (rangeMap (dom (badCommitsMap output r))) as [|k l IH]; [done|].
  simpl. destruct (Hall k) as (bc & Hbc & Hh); [by left|].
  unfold Hash in *. rewrite Hbc. simpl. rewrite Hh. f_equal.
  apply IH. intros k' Hk'. apply Hall. by right.
Qed.

(** X10. [FindBadCommits] lists a record exactly for the commit hashes that
    a handled issue of [RunFsck] names (its [Commit], or its [Object] when
    that is empty), that are neither empty nor the null hash and that load as
    a commit; the record is built from that commit, and however many issues
    name a hash it is listed once. *)
Theorem FindBadCommits_spec (output : string) (r : Repository) :
  (∀ bc, bc ∈ FindBadCommits output r ↔
         ∃ issue commit,
           issue ∈ RunFsck output r ∧ handled issue = true
           ∧ issueCommitHash issue ≠ "" ∧ issueCommitHash issue ≠ nullSHA
           ∧ CommitObject r (NewHash (issueCommitHash issue)) = Some commit
           ∧ bc = newBadCommit (issueCommitHash issue) commit)
  ∧ NoDup (BadHash <$> FindBadCommits output r).
Proof.
  split.
  - intros bc. rewrite elem_of_FindBadCommits. split.
    + intros (k & Hk). apply badCommitsMap_lookup in Hk
        as ((issue & Hi & Hh & <-) & Hne & Hnz & commit & Hc & ->).
      by exists issue, commit.
    + intros (issue & commit & Hi & Hh & Hne & Hnz & Hc & ->).
      exists (issueCommitHash issue). apply badCommitsMap_lookup.
      split; [by exists issue|]. split; [done|]. split; [done|]. by exists commit.
  - rewrite FindBadCommits_hashes, rangeMap_perm. apply NoDup_elements.
Qed.

Lemma NewHash_fixed_nonempty (h : string) : NewHash h = h → h ≠ "".
Proof. intros Hh ->. by vm_compute in Hh. Qed.

(** A reference on a commit with a null parent makes [RunFsck] name that
    commit in a broken-parent issue. *)
Lemma RunFsck_broken_parent output r ref commit :
  ref ∈ References r → RefType ref = HashReference → RefHash ref ≠ nullSHA →
  CommitObject r (RefHash ref) = Some commit → ZeroHash ∈ ParentHashes commit →
  ∃ issue, issue ∈ RunFsck output r ∧ handled issue = true
           ∧ issueCommitHash issue = RefHash ref.
Proof.
  intros Hin Hty Hnz Hc Hp.
  exists (mkIssue IssueTypeBrokenParent (RefHash ref) "Commit has null parent SHA" "").
  split; [|done].
  unfold RunFsck. apply elem_of_app. right.
  apply list_elem_of_In, in_flat_map. exists ref. split; [by apply list_elem_of_In|].
  unfold checkRef. rewrite Hty.
  assert (IsZero (RefHash ref) || String.eqb (RefHash ref) nullSHA = false) as ->.
  { apply orb_false_intro; by apply String.eqb_neq. }
  rewrite Hc. apply in_or_app. right. apply in_flat_map.
  exists ZeroHash. split; [by apply list_elem_of_In|]. by left.
Qed.

(** X11. A branch, tag or other hash reference on a commit whose first
    parent is the null hash: [FindBadCommits] lists that commit as not a root
    and with an empty parent field, and [BadCommit.String], which the fix
    command calls on every listed commit, panics on it. *)
Theorem FindBadCommits_String_panics (output : string) (r : Repository)
    (ref : Reference) (commit : Commit) (rest : list Hash) :
  ref ∈ References r → RefType ref = HashReference →
  NewHash (RefHash ref) = RefHash ref → RefHash ref ≠ nullSHA →
  CommitObject r (RefHash ref) = Some commit →
  ParentHashes commit = ZeroHash :: rest →
  ∃ bc, bc ∈ FindBadCommits output r
        ∧ BadHash bc = RefHash ref ∧ BadIsRoot bc = false ∧ BadParentHash bc = ""
        ∧ BadCommit_String bc = None.
Proof.
  intros Hin Hty Hfix Hnz Hc Hp.
  destruct (RunFsck_broken_parent output r ref commit) as (issue & Hi & Hh & Hk);
    [done|done|done|done|rewrite Hp; by left|].
  exists (newBadCommit (RefHash ref) commit).
  split.
  - apply elem_of_FindBadCommits. exists (RefHash ref). apply badCommitsMap_lookup.
    split; [by exists issue|]. split; [by apply NewHash_fixed_nonempty|].
    split; [done|]. exists commit. by rewrite Hfix.
  - unfold BadCommit_String, newBadCommit. simpl. rewrite Hp. simpl.
    split; [done|]. split; [done|]. split; [done|].
    by destruct (sliceTo (RefHash ref) 8).
Qed.

End FindBadCommitsFacts.

Lemma FindBadCommits_String_panics_witness :
  ∃ bc, bc ∈ FindBadCommits
               (runtime := Fixtures.runtimeFirst []) (layout := Fixtures2.fixtureLayout)
               "" Fixtures.nullParent
        ∧ BadHash bc = Fixtures.h40 "7"
        ∧ BadCommit_String bc = None.
Proof.
  destruct (FindBadCommits_String_panics
              (runtime := Fixtures.runtimeFirst []) (layout := Fixtures2.fixtureLayout)
              "" Fixtures.nullParent
              (NewHashReference "refs/heads/main" (Fixtures.h40 "7"))
              (Fixtures.commit "7 work" (Fixtures.h40 "e") [ZeroHash]) [])
    as (bc & Hin & Hh & _ & _ & Hs).
  - vm_compute. by left.
  - reflexivity.
  - vm_compute. reflexivity.
  - discriminate.
  - vm_compute. reflexivity.
  - reflexivity.
  - exists bc. split; [exact Hin|]. split; [exact Hh|exact Hs].
Defined.

Section FoundAndReplaced.
Context {hasher : Hasher} {runtime : GoRuntime} {layout : TimeFormat}.

(** The path of [ReplaceCommit] for a commit that loads, in full. *)
Lemma ReplaceCommit_readable now r bc oldCommit :
  CommitObject r (NewHash (BadHash bc)) = Some oldCommit →
  let r' := ReplaceCommit now r bc in
  ∃ newCommit,
    refs r' !! ("refs/replace/" ++ BadHash bc)
      = Some (NewHashReference ("refs/replace/" ++ BadHash bc)
                (hashObject (CommitObject_ newCommit)))
    ∧ CommitObject r' (hashObject (CommitObject_ newCommit)) = Some newCommit
    ∧ Author newCommit = Author oldCommit
    ∧ Committer newCommit = Committer oldCommit
    ∧ Message newCommit = Message oldCommit
    ∧ (ParentHashes newCommit = []
       ∨ ParentHashes newCommit = [NewHash (BadParentHash bc)]
         ∧ BadParentHash bc ≠ "" ∧ BadParentHash bc ≠ nullSHA
         ∧ is_Some (CommitObject r' (NewHash (BadParentHash bc)))).
Proof.
  intros Hold. unfold ReplaceCommit. rewrite Hold.
  destruct (match TreeObject r (NewHash EmptyTreeHash) with
            | Some _ => (r, NewHash EmptyTreeHash)
            | None => let '(r1, emptyTreeStr) := CreateEmptyTree r in
                      (r1, NewHash emptyTreeStr)
            end) as [r1 emptyTreeHash].
  match goal with
  | |- context [SetEncodedObject r1 (CommitObject_ ?c)] =>
      pose proof (staged_commit r1 c ("refs/replace/" ++ BadHash bc)) as Hs;
      destruct (SetEncodedObject r1 (CommitObject_ c)) as [r2 newHash];
      exists c
  end.
  destruct Hs as (Href & Hc & Hkeep). cbv zeta.
  split; [done|]. split; [done|]. split; [done|]. split; [done|]. split; [done|].
  simpl.
  destruct (String.eqb_spec (BadParentHash bc) "") as [|Hne]; simpl; [by left|].
  destruct (String.eqb_spec (BadParentHash bc)
              "0000000000000000000000000000000000000000") as [|Hnz];
    simpl; [by left|].
  destruct (CommitObject r1 (NewHash (BadParentHash bc))) eqn:E; [|by left].
  right. split; [done|]. split; [done|]. split; [done|]. apply Hkeep. by rewrite E.
Qed.

(** X12. What [ReplaceCommit] does with a record of [FindBadCommits]: the
    flagged commit loads, so the replacement filed under
    [refs/replace/<hash>] carries the author, committer and message of the
    original, never the placeholder signature; it has no parent, or the first
    parent of the original alone when that is not the null hash and loads as
    a commit.  The other parents of a merge are dropped. *)
Theorem ReplaceCommit_of_found (output : string) (now : Z) (r : Repository)
    (bc : BadCommit) :
  bc ∈ FindBadCommits output r →
  let r' := ReplaceCommit now r bc in
  ∃ oldCommit newCommit,
    CommitObject r (NewHash (BadHash bc)) = Some oldCommit
    ∧ refs r' !! ("refs/replace/" ++ BadHash bc)
      = Some (NewHashReference ("refs/replace/" ++ BadHash bc)
                (hashObject (CommitObject_ newCommit)))
    ∧ CommitObject r' (hashObject (CommitObject_ newCommit)) = Some newCommit
    ∧ Author newCommit = Author oldCommit
    ∧ Committer newCommit = Committer oldCommit
    ∧ Message newCommit = Message oldCommit
    ∧ (ParentHashes newCommit = []
       ∨ ∃ first others,
           ParentHashes oldCommit = first :: others ∧ first ≠ ZeroHash
           ∧ ParentHashes newCommit = [NewHash first]
           ∧ is_Some (CommitObject r' (NewHash first))).
Proof.
  intros Hin. apply elem_of_FindBadCommits in Hin as (k & Hk).
  apply badCommitsMap_lookup in Hk as (_ & _ & _ & oldCommit & Hold & ->).
  destruct (ReplaceCommit_readable now r (newBadCommit k oldCommit) oldCommit Hold)
    as (newCommit & Href & Hc & Ha & Hco & Hm & Hp).
  cbv zeta. exists oldCommit, newCommit.
  do 6 (split; [done|]).
  destruct Hp as [Hp|(Hp & Hne & Hnz & Hload)]; [by left|]. right.
  simpl in *.
  destruct (ParentHashes oldCommit) as [|first others]; [done|].
  unfold IsZero in *.
  destruct (String.eqb_spec first ZeroHash) as [|Hfz]; simpl in *; [done|].
  by exists first, others.
Qed.

End FoundAndReplaced.

Lemma ReplaceCommit_of_found_witness :
  ∃ newCommit,
    refs (ReplaceCommit (hasher := Fixtures.fixtureHash) 0 Fixtures.nullParent
            Fixtures2.found) !! ("refs/replace/" ++ Fixtures.h40 "7")
      = Some (NewHashReference ("refs/replace/" ++ Fixtures.h40 "7")
                (Fixtures.fixtureHash (CommitObject_ newCommit)))
    ∧ Author newCommit = Fixtures.alice
    ∧ ParentHashes newCommit = [].
Proof.
  destruct (ReplaceCommit_of_found (hasher := Fixtures.fixtureHash)
              (runtime := Fixtures.runtimeFirst []) (layout := Fixtures2.fixtureLayout)
              "" 0 Fixtures.nullParent Fixtures2.found)
    as (oldCommit & newCommit & Hold & Href & _ & Ha & _ & _ & Hp).
  - vm_compute. by left.
  - exists newCommit. split; [exact Href|].
    assert (CommitObject Fixtures.nullParent (NewHash (BadHash Fixtures2.found))
            = Some (Fixtures.commit "7 work" (Fixtures.h40 "e") [ZeroHash])) as Hold'
      by (vm_compute; reflexivity).
    rewrite Hold' in Hold. injection Hold as <-.
    split; [exact Ha|].
    destruct Hp as [Hp|(first & others & Hfirst & Hnz & _)]; [exact Hp|].
    injection Hfirst as <- _. destruct Hnz. reflexivity.
Defined.

(** * [FixNullSHATags] *)














(** * The text passes: [packed-refs] and rewritten commits *)

Example Fields_runs : Strings2.Fields "  a  bc d " = ["a"; "bc"; "d"].
Proof. reflexivity. Qed.

Example Fields_blank : Strings2.Fields "   " = [].
Proof. reflexivity. Qed.

Example packedEntry_line :
  packedEntry "1111111111111111111111111111111111111111 refs/heads/main"
  = Some ("1111111111111111111111111111111111111111", "refs/heads/main").
Proof. reflexivity. Qed.

Example packedEntry_comment : packedEntry "# pack-refs with: peeled" = None.
Proof. reflexivity. Qed.

(** ** [strings.Split] and [strings.Join] *)

Lemma Split_nonempty s sep : Strings.Split s sep ≠ [].
Proof.
  destruct s as [|c r]; simpl; [done|].
  destruct (Ascii.eqb c sep); [done|]. by destruct (Strings.Split r sep).
Qed.

Lemma Split_no_sep s sep :
  Forall (λ l, Strings2.hasByte sep l = false) (Strings.Split s sep).
Proof.
  induction s as [|c r IH]; simpl; [by repeat constructor|].
  destruct (Ascii.eqb c sep) eqn:E.
  - constructor; [done|exact IH].
  - destruct (Strings.Split r sep) as [|f fs]; [by constructor; [simpl; rewrite E|]|].
    inversion IH as [|? ? Hf Hfs]; subst.
    constructor; [simpl; by rewrite E|done].
Qed.

Lemma Split_whole s sep : Strings2.hasByte sep s = false → Strings.Split s sep = [s].
Proof.
  induction s as [|c r IH]; simpl; [done|].
  intros H. apply orb_false_elim in H as [-> Hr]. by rewrite (IH Hr).
Qed.

Lemma Split_app p rest sep :
  Strings2.hasByte sep p = false →
  Strings.Split (p ++ String sep rest) sep = p :: Strings.Split rest sep.
Proof.
  induction p as [|c r IH]; simpl.
  - intros _. by rewrite Ascii.eqb_refl.
  - intros H. apply orb_false_elim in H as [-> Hr]. by rewrite (IH Hr).
Qed.

Lemma Split_Join ls sep :
  ls ≠ [] → Forall (λ l, Strings2.hasByte sep l = false) ls →
  Strings.Split (Strings.Join ls (String sep "")) sep = ls.
Proof.
  induction ls as [|p ps IH]; [done|]. intros _ Hall.
  inversion Hall as [|? ? Hp Hps]; subst.
  destruct ps as [|q qs]; [by apply Split_whole|].
  change (Strings.Join (p :: q :: qs) (String sep ""))
    with (p ++ String sep (Strings.Join (q :: qs) (String sep ""))).
  rewrite Split_app by done. f_equal. by apply IH.
Qed.

(** ** [CleanupPackedRefs] *)

Lemma cleanupLine_entry st line :
  cleanupLine st line =
    match packedEntry line with
    | Some (sha, refName) =>
        if nullLike sha || bool_decide (refName ∈ seenRefs st)
        then mkPackedScan (newLines st) (seenRefs st) true
        else mkPackedScan (newLines st ++ [line]) ({[refName]} ∪ seenRefs st)
                          (modified st)
    | None => mkPackedScan (newLines st ++ [line]) (seenRefs st) (modified st)
    end.
Proof.
  unfold cleanupLine, packedEntry. cbv zeta.
  destruct (isEntryLine (Strings.TrimSpace line)); [|done].
  destruct (Strings2.Fields (Strings.TrimSpace line)) as [|sha [|refName rest]];
    [done|done|].
  destruct (nullLike sha); [done|]. simpl.
  by destruct (bool_decide (refName ∈ seenRefs st)).
Qed.

Lemma keptLines_sublist seen lines : keptLines seen lines `sublist_of` lines.
Proof.
  revert seen. induction lines as [|line rest IH]; intros seen; simpl; [done|].
  destruct (packedEntry line) as [[sha refName]|].
  - destruct (nullLike sha || bool_decide (refName ∈ seen)).
    + by apply sublist_cons.
    + by apply sublist_skip.
  - by apply sublist_skip.
Qed.

Lemma keptLines_all seen lines :
  length (keptLines seen lines) = length lines → keptLines seen lines = lines.
Proof.
  revert seen. induction lines as [|line rest IH]; intros seen; simpl; [done|].
  assert (length (keptLines seen rest) ≠ S (length rest)) as Hshort.
  { pose proof (sublist_length _ _ (keptLines_sublist seen rest)). lia. }
  destruct (packedEntry line) as [[sha refName]|].
  - destruct (nullLike sha || bool_decide (refName ∈ seen)); [done|].
    simpl. intros [= Hlen]. by rewrite IH.
  - simpl. intros [= Hlen]. by rewrite IH.
Qed.

(** The loop, in terms of the lines it keeps. *)
Lemma cleanupFold st lines :
  let st' := foldl cleanupLine st lines in
  newLines st' = (newLines st ++ keptLines (seenRefs st) lines)%list
  ∧ modified st'
    = modified st
      || negb (Nat.eqb (length (keptLines (seenRefs st) lines)) (length lines)).
Proof.
  cbv zeta. revert st. induction lines as [|line rest IH]; intros st.
  { simpl. by rewrite app_nil_r, orb_false_r. }
  cbn [foldl keptLines]. destruct (IH (cleanupLine st line)) as [Hn Hm].
  rewrite Hn, Hm, cleanupLine_entry. clear IH Hn Hm.
  assert (∀ seen, negb (Nat.eqb (length (keptLines seen rest)) (S (length rest)))
                  = true) as Hshort.
  { intros seen. apply negb_true_iff, Nat.eqb_neq.
    pose proof (sublist_length _ _ (keptLines_sublist seen rest)). lia. }
  destruct (packedEntry line) as [[sha refName]|]; simpl.
  - destruct (nullLike sha || bool_decide (refName ∈ seenRefs st)); simpl.
    + split; [done|]. by rewrite Hshort, !orb_true_r.
    + by rewrite <- app_assoc.
  - by rewrite <- app_assoc.
Qed.

Lemma cleanupScan_kept content :
  newLines (cleanupScan content) = keptLines ∅ (Strings.Split content "010"%char)
  ∧ (modified (cleanupScan content) = false ↔
     keptLines ∅ (Strings.Split content "010"%char) = Strings.Split content "010"%char).
Proof.
  unfold cleanupScan.
  destruct (cleanupFold (mkPackedScan [] ∅ false) (Strings.Split content "010"%char))
    as [Hn Hm].
  simpl in *. split; [done|]. rewrite Hm. split.
  - intros H. apply negb_false_iff, Nat.eqb_eq in H. by apply keptLines_all.
  - intros ->. apply negb_false_iff, Nat.eqb_eq. done.
Qed.

Lemma keptLines_idem seen lines :
  keptLines seen (keptLines seen lines) = keptLines seen lines.
Proof.
  revert seen. induction lines as [|line rest IH]; intros seen; simpl; [done|].
  destruct (packedEntry line) as [[sha refName]|] eqn:E.
  - destruct (nullLike sha || bool_decide (refName ∈ seen)) eqn:Ed; [done|].
    simpl. rewrite E, Ed. by rewrite IH.
  - simpl. rewrite E. by rewrite IH.
Qed.



(** X15. [CleanupPackedRefs] is idempotent: on the content it has written
    it finds nothing to remove and does not write again. *)
Theorem CleanupPackedRefs_idempotent (content content' : string) :
  CleanupPackedRefs content = Some content' → CleanupPackedRefs content' = None.
Proof.
  unfold CleanupPackedRefs. cbv zeta.
  destruct (modified (cleanupScan content)); [|done]. intros [= <-].
  destruct (cleanupScan_kept content) as [Hk _]. rewrite Hk.
  set (lines := Strings.Split content "010"%char).
  destruct (keptLines ∅ lines) as [|l ls] eqn:Ekept; [reflexivity|].
  assert (Strings.Split (Strings.Join (l :: ls) (String "010"%char "")) "010"%char
          = l :: ls) as Hsplit.
  { apply Split_Join; [done|]. rewrite <- Ekept. apply Forall_forall.
    intros x Hx. apply elem_of_sublist with (l2 := lines) in Hx;
      [|apply keptLines_sublist].
    revert x Hx. apply Forall_forall, Split_no_sep. }
  destruct (cleanupScan_kept (Strings.Join (l :: ls) (String "010"%char "")))
    as [_ Hm].
  rewrite Hsplit in Hm.
  assert (keptLines ∅ (l :: ls) = l :: ls) as Hidem
    by (rewrite <- Ekept; apply keptLines_idem).
  by rewrite (proj2 Hm Hidem).
Qed.

Lemma CleanupPackedRefs_idempotent_witness :
  CleanupPackedRefs Fixtures2.packed = Some Fixtures2.repacked
  ∧ CleanupPackedRefs Fixtures2.repacked = None.
Proof.
  split; [vm_compute; reflexivity|].
  apply (CleanupPackedRefs_idempotent Fixtures2.packed Fixtures2.repacked).
  vm_compute. reflexivity.
Defined.

(** ** The pass of [FixNullSHAReferences] over [packed-refs] *)

Lemma Contains_hasByte s c sub :
  Strings.Contains s (String c sub) = true → Strings2.hasByte c s = true.
Proof.
  induction s as [|c' r IH]; simpl; [done|].
  intros H. apply orb_true_iff in H as [H|H].
  - destruct (ascii_dec c c') as [->|]; [|done]. by rewrite Ascii.eqb_refl.
  - rewrite (IH H). apply orb_true_r.
Qed.

Lemma TrimLeft_empty s c :
  Strings.TrimLeft s = "" → Strings.isSpace c = false → Strings2.hasByte c s = false.
Proof.
  intros Hs Hc. induction s as [|c' r IH]; simpl in *; [done|].
  destruct (Strings.isSpace c') eqn:Hc'; [|done].
  rewrite (IH Hs), orb_false_r. apply Ascii.eqb_neq. congruence.
Qed.

Lemma TrimRight_empty s :
  Strings.TrimRight s = "" → s = "" ∨ ∃ c r, s = String c r ∧ Strings.isSpace c = true.
Proof.
  destruct s as [|c r]; simpl; [by left|]. intros H. right. exists c, r.
  split; [done|].
  destruct (Strings.TrimRight r); [|done]. by destruct (Strings.isSpace c).
Qed.

Lemma TrimSpace_blank line :
  Strings.TrimSpace line = "" → Strings.Contains line nullSHA = false.
Proof.
  unfold Strings.TrimSpace. intros H.
  assert (Strings.TrimLeft line = "") as Hl.
  { apply TrimRight_empty in H as [H|(c & r & H & Hc)]; [done|].
    exfalso. clear -H Hc. induction line as [|c' r' IH]; simpl in H; [done|].
    destruct (Strings.isSpace c') eqn:Hc'; [by apply IH|].
    injection H as -> ->. congruence. }
  destruct (Strings.Contains line nullSHA) eqn:E; [|done].
  apply Contains_hasByte in E. by rewrite (TrimLeft_empty _ _ Hl) in E.
Qed.

Lemma packedEntry_blank line : Strings.TrimSpace line = "" → packedEntry line = None.
Proof. unfold packedEntry. cbv zeta. by intros ->. Qed.

Lemma fixPackedLine_cases dryRun st n line :
  fixPackedLine dryRun (st, n) line =
    if Strings.Contains line nullSHA
    then (mkPackedScan (newLines st) (seenRefs st) true, S n)
    else
      match packedEntry line with
      | Some (_, refName) =>
          if bool_decide (refName ∈ seenRefs st)
          then (mkPackedScan (newLines st) (seenRefs st) true, n)
          else (mkPackedScan (if dryRun then newLines st else newLines st ++ [line])
                  ({[refName]} ∪ seenRefs st) (modified st), n)
      | None =>
          (mkPackedScan (if dryRun then newLines st else newLines st ++ [line])
             (seenRefs st) (modified st), n)
      end.
Proof.
  unfold fixPackedLine. cbv zeta.
  destruct (dryRun && String.eqb (Strings.TrimSpace line) "") eqn:Hskip.
  { apply andb_true_iff in Hskip as [-> Hb]. apply String.eqb_eq in Hb.
    rewrite (TrimSpace_blank _ Hb), (packedEntry_blank _ Hb). by destruct st. }
  destruct (Strings.Contains line nullSHA); [done|].
  unfold packedEntry. cbv zeta.
  destruct (isEntryLine (Strings.TrimSpace line)); [|done].
  by destruct (Strings2.Fields (Strings.TrimSpace line)) as [|sha [|refName rest]].
Qed.

(** The dry run: nothing is collected, the count moves as in a live run. *)
Lemma fixPackedFold_modes lines std stl n :
  seenRefs std = seenRefs stl → modified std = modified stl →
  let d := foldl (fixPackedLine true) (std, n) lines in
  let l := foldl (fixPackedLine false) (stl, n) lines in
  seenRefs d.1 = seenRefs l.1 ∧ modified d.1 = modified l.1 ∧ d.2 = l.2
  ∧ newLines d.1 = newLines std.
Proof.
  cbv zeta. revert std stl n.
  induction lines as [|line rest IH]; intros std stl n Hs Hm; [done|].
  cbn [foldl]. rewrite !fixPackedLine_cases.
  destruct (Strings.Contains line nullSHA).
  { by apply (IH (mkPackedScan _ _ _) (mkPackedScan _ _ _)). }
  destruct (packedEntry line) as [[sha refName]|].
  - rewrite Hs. destruct (bool_decide (refName ∈ seenRefs stl)).
    + by apply (IH (mkPackedScan _ _ _) (mkPackedScan _ _ _)).
    + by apply (IH (mkPackedScan _ _ _) (mkPackedScan _ _ _)).
  - by apply (IH (mkPackedScan _ _ _) (mkPackedScan _ _ _)).
Qed.

(** The live run. *)
Lemma fixPackedFold_live lines st n :
  let l := foldl (fixPackedLine false) (st, n) lines in
  l.2 = (n + length (filter (λ line, Strings.Contains line nullSHA = true) lines))%nat
  ∧ (modified st = true
     ∨ (∃ line, line ∈ lines ∧ Strings.Contains line nullSHA = true) →
     modified l.1 = true)
  ∧ ∃ kept, newLines l.1 = (newLines st ++ kept)%list
            ∧ kept `sublist_of` lines
            ∧ ∀ line, line ∈ kept → Strings.Contains line nullSHA = false.
Proof.
  cbv zeta. revert st n. induction lines as [|line rest IH]; intros st n.
  { simpl. split; [lia|]. split.
    - intros [?|(? & H & _)]; [done|by inversion H].
    - exists []. split; [by rewrite app_nil_r|]. split; [done|].
      intros ? H. by inversion H. }
  cbn [foldl]. rewrite fixPackedLine_cases, filter_cons.
  destruct (Strings.Contains line nullSHA) eqn:Hnull.
  { destruct (IH (mkPackedScan (newLines st) (seenRefs st) true) (S n))
      as (Hc & Hmod & kept & Hk & Hsub & Hno).
    rewrite decide_True by done. simpl in *.
    split; [lia|]. split; [intros _; apply Hmod; by left|].
    exists kept. split; [done|]. split; [by apply sublist_cons|done]. }
  rewrite decide_False by done.
  assert (∀ st', (modified st = true → modified st' = true) →
     (modified st = true
      ∨ (∃ line0, line0 ∈ line :: rest ∧ Strings.Contains line0 nullSHA = true)) →
     modified st' = true
     ∨ (∃ line0, line0 ∈ rest ∧ Strings.Contains line0 nullSHA = true)) as Hpre.
  { intros st' Hst' [Hm|(line0 & Hin & Hc0)]; [left; by apply Hst'|].
    apply elem_of_cons in Hin as [->|Hin]; [congruence|]. right. by exists line0. }
  destruct (packedEntry line) as [[sha refName]|].
  - destruct (bool_decide (refName ∈ seenRefs st)).
    + destruct (IH (mkPackedScan (newLines st) (seenRefs st) true) n)
        as (Hc & Hmod & kept & Hk & Hsub & Hno). simpl in *.
      split; [done|]. split; [intros _; apply Hmod; by left|].
      exists kept. split; [done|]. split; [by apply sublist_cons|done].
    + destruct (IH (mkPackedScan (newLines st ++ [line]) ({[refName]} ∪ seenRefs st)
                      (modified st)) n)
        as (Hc & Hmod & kept & Hk & Hsub & Hno). simpl in *.
      split; [done|]. split; [intros H; by apply Hmod, Hpre|].
      exists (line :: kept). split; [by rewrite Hk, <- app_assoc|].
      split; [by apply sublist_skip|].
      intros l Hl. apply elem_of_cons in Hl as [->|Hl]; [done|by apply Hno].
  - destruct (IH (mkPackedScan (newLines st ++ [line]) (seenRefs st) (modified st)) n)
      as (Hc & Hmod & kept & Hk & Hsub & Hno). simpl in *.
    split; [done|]. split; [intros H; by apply Hmod, Hpre|].
    exists (line :: kept). split; [by rewrite Hk, <- app_assoc|].
    split; [by apply sublist_skip|].
    intros l Hl. apply elem_of_cons in Hl as [->|Hl]; [done|by apply Hno].
Qed.

(** X16. The pass of [FixNullSHAReferences] over [packed-refs]: a dry run
    writes nothing and adds to the count exactly what a live run adds, the
    number of lines that contain the null hash.  A live run writes the file
    whenever there is such a line; what it writes is a selection of the lines
    read, in their order, none of which contains the null hash. *)
Theorem fixPackedRefs_modes (content : string) :
  let lines := Strings.Split content "010"%char in
  let nulls := length (filter (λ line, Strings.Contains line nullSHA = true) lines) in
  fixPackedRefs true content = (None, nulls)
  ∧ (fixPackedRefs false content).2 = nulls
  ∧ ((0 < nulls)%nat → is_Some (fixPackedRefs false content).1)
  ∧ ∀ content', (fixPackedRefs false content).1 = Some content' →
      ∃ kept, content' = Strings.Join kept (String "010"%char "")
              ∧ kept `sublist_of` lines
              ∧ ∀ line, line ∈ kept → Strings.Contains line nullSHA = false.
Proof.
  cbv zeta. unfold fixPackedRefs.
  pose proof (fixPackedFold_modes (Strings.Split content "010"%char)
                (mkPackedScan [] ∅ false) (mkPackedScan [] ∅ false) 0 eq_refl eq_refl)
    as (_ & _ & Hcount & _).
  pose proof (fixPackedFold_live (Strings.Split content "010"%char)
                (mkPackedScan [] ∅ false) 0) as (Hn & Hmod & kept & Hk & Hsub & Hno).
  cbv zeta in *.
  destruct (foldl (fixPackedLine true) (mkPackedScan [] ∅ false, 0)
              (Strings.Split content "010"%char)) as [std nd].
  destruct (foldl (fixPackedLine false) (mkPackedScan [] ∅ false, 0)
              (Strings.Split content "010"%char)) as [stl nl].
  simpl in *. subst nd. rewrite andb_false_r, andb_true_r.
  split; [by rewrite Hn|]. split; [done|]. split.
  - intros Hpos. rewrite Hmod; [done|]. right.
    destruct (filter (λ line, Strings.Contains line nullSHA = true)
                (Strings.Split content "010"%char)) as [|line ?] eqn:Ef;
      [simpl in Hpos; lia|].
    exists line.
    assert (line ∈ filter (λ line, Strings.Contains line nullSHA = true)
                     (Strings.Split content "010"%char)) as Hin
      by (rewrite Ef; by left).
    apply list_elem_of_filter in Hin as [Hc Hin]. done.
  - intros content'. destruct (modified stl); [|done]. intros [= <-].
    exists kept. by rewrite Hk.
Qed.

(** ** The commit text [updateCommitsWithNewTree] writes *)

Lemma hasByte_app c s1 s2 :
  Strings2.hasByte c (s1 ++ s2) = Strings2.hasByte c s1 || Strings2.hasByte c s2.
Proof.
  induction s1 as [|c' r IH]; simpl; [done|]. by rewrite IH, orb_assoc.
Qed.

(** X17. The commit text [updateCommitsWithNewTree] hands to
    [git hash-object], for a new tree hash without a newline: line by line
    the text read from [git cat-file commit], except that every line that
    starts with ["tree "] reads ["tree <newTreeHash>"].  This holds for the
    header line that names the tree and for any such line of the commit
    message alike. *)
Theorem newCommitData_lines (commitData newTreeHash : string) :
  Strings2.hasByte "010"%char newTreeHash = false →
  Strings.Split (newCommitData commitData newTreeHash) "010"%char
    = map (λ line, if Strings.HasPrefix line "tree "
                   then "tree " ++ newTreeHash else line)
          (Strings.Split commitData "010"%char).
Proof.
  intros Hnew. unfold newCommitData. apply Split_Join.
  - pose proof (Split_nonempty commitData "010"%char).
    by destruct (Strings.Split commitData "010"%char).
  - apply Forall_forall. intros x Hx. apply list_elem_of_In, in_map_iff in Hx
      as (line & <- & Hline).
    unfold replaceTreeLine. destruct (Strings.HasPrefix line "tree ").
    + by rewrite hasByte_app, Hnew.
    + apply list_elem_of_In in Hline. revert line Hline.
      apply Forall_forall, Split_no_sep.
Qed.

Lemma newCommitData_lines_witness :
  Strings.Split (newCommitData Fixtures2.commitText EmptyTreeHash) "010"%char !! 4%nat
    = Some ("tree " ++ EmptyTreeHash).
Proof.
  rewrite (newCommitData_lines Fixtures2.commitText EmptyTreeHash);
    [reflexivity|vm_compute; reflexivity].
Defined.

(** * [VerifyRepository] *)

Lemma flat_map_nil {A B} (f : A → list B) (l : list A) :
  flat_map f l = [] ↔ ∀ x, x ∈ l → f x = [].
Proof.
  induction l as [|a l IH]; simpl.
  - split; [by intros _ x Hx; inversion Hx|done].
  - split.
    + intros H. apply app_eq_nil in H as [Ha Hl]. intros x Hx.
      apply elem_of_cons in Hx as [->|Hx]; [done|]. by apply IH.
    + intros H. rewrite (H a) by by left. simpl. apply IH.
      intros x Hx. apply H. by right.
Qed.

Lemma checkRef_nil r ref :
  checkRef r ref = [] ↔
    RefType ref = SymbolicReference
    ∨ (RefHash ref ≠ ZeroHash
       ∧ ∃ commit, CommitObject r (RefHash ref) = Some commit
                   ∧ is_Some (TreeObject r (TreeHash commit))
                   ∧ ZeroHash ∉ ParentHashes commit).
Proof.
  unfold checkRef. rewrite IsZero_or_null.
  destruct (RefType ref); [|by split; [left|]].
  destruct (String.eqb_spec (RefHash ref) ZeroHash) as [Hz|Hz].
  { split; [done|]. by intros [?|[? _]]. }
  destruct (CommitObject r (RefHash ref)) as [commit|].
  2: { split; [done|]. by intros [?|(_ & ? & ? & _)]. }
  split.
  - intros H. apply app_eq_nil in H as [Ht Hp]. right. split; [done|].
    exists commit. split; [done|].
    split; [by destruct (TreeObject r (TreeHash commit))|].
    intros Hin. rewrite flat_map_nil in Hp. specialize (Hp _ Hin).
    by rewrite IsZero_or_null, String.eqb_refl in Hp.
  - intros [?|(_ & commit' & [= <-] & [t Ht] & Hp)]; [done|].
    rewrite Ht. simpl. apply flat_map_nil. intros p Hin.
    rewrite IsZero_or_null. destruct (String.eqb_spec p ZeroHash) as [->|]; done.
Qed.

(** X18. What "verified" means: [VerifyRepository] returns no error exactly
    when nothing was parsed out of the output of [git fsck] and every hash
    reference is off the null hash and points directly at a commit that
    loads, whose tree loads and none of whose parents is the null hash.
    Symbolic references and the ancestors of those commits play no part. *)
Theorem VerifyRepository_ok (output : string) (r : Repository) :
  VerifyRepository output r = Ok tt ↔
    parseFsckOutput output = []
    ∧ ∀ ref, ref ∈ References r → RefType ref = HashReference →
        RefHash ref ≠ ZeroHash
        ∧ ∃ commit, CommitObject r (RefHash ref) = Some commit
                    ∧ is_Some (TreeObject r (TreeHash commit))
                    ∧ ZeroHash ∉ ParentHashes commit.
Proof.
  unfold VerifyRepository. cbv zeta.
  assert (RunFsck output r = [] ↔
          parseFsckOutput output = []
          ∧ ∀ ref, ref ∈ References r → RefType ref = HashReference →
              RefHash ref ≠ ZeroHash
              ∧ ∃ commit, CommitObject r (RefHash ref) = Some commit
                          ∧ is_Some (TreeObject r (TreeHash commit))
                          ∧ ZeroHash ∉ ParentHashes commit) as <-.
  { unfold RunFsck. split.
    - intros H. apply app_eq_nil in H as [Hp Hr]. split; [done|].
      intros ref Hin Hty. rewrite flat_map_nil in Hr.
      specialize (Hr ref Hin). apply checkRef_nil in Hr as [?|?]; [congruence|done].
    - intros [-> Hr]. simpl. apply flat_map_nil. intros ref Hin.
      apply checkRef_nil. destruct (RefType ref) eqn:Hty; [right|by left].
      by apply Hr. }
  destruct (RunFsck output r) as [|i l]; simpl; [done|]. by split.
Qed.

(** * [AnalyzeAndPopulate] *)

Lemma analyzeNullRef_fold validCommit refs acc :
  foldl (analyzeNullRef validCommit) acc refs = None ↔
    acc = None
    ∨ (sliceTo validCommit 8 = None ∧ ∃ ref, ref ∈ refs ∧ RefHash ref = nullSHA).
Proof.
  revert acc. induction refs as [|ref refs IH]; intros acc; simpl.
  { split; [by intros ?; left|]. intros [?|(_ & ? & H & _)]; [done|by inversion H]. }
  rewrite IH. unfold analyzeNullRef at 1. destruct acc as [changes|]; simpl.
  2: { split; intros _; by left. }
  destruct (String.eqb_spec (RefHash ref) nullSHA) as [Hz|Hz]; cbv zeta.
  - destruct (sliceTo validCommit 8) as [short|] eqn:Hs; simpl.
    + split; (intros [?|(? & _)]; done).
    + split; intros _; [right; split; [done|]; exists ref; split; [by left|done]|by left].
  - split; (intros [?|(Hs & ref' & Hin & Hz')]; [done|right]); (split; [done|]).
    + exists ref'. split; [by right|done].
    + apply elem_of_cons in Hin as [->|Hin]; [done|]. by exists ref'.
Qed.

Lemma analyzeMissing_fold r validCommit refs acc :
  foldl (analyzeMissing r validCommit) acc refs = None ↔
    acc = None
    ∨ (sliceTo validCommit 8 = None
       ∧ ∃ ref, ref ∈ refs ∧ CommitObject r (RefHash ref) = None
                ∧ RefHash ref ≠ ZeroHash).
Proof.
  revert acc. induction refs as [|ref refs IH]; intros acc; simpl.
  { split; [by intros ?; left|]. intros [?|(_ & ? & H & _)]; [done|by inversion H]. }
  rewrite IH. unfold analyzeMissing at 1. destruct acc as [changes|]; simpl.
  2: { split; intros _; by left. }
  assert (∀ P : Prop,
            (CommitObject r (RefHash ref) = None ∧ RefHash ref ≠ ZeroHash → False) →
            (P ∨ sliceTo validCommit 8 = None
                 ∧ (∃ ref0, ref0 ∈ refs ∧ CommitObject r (RefHash ref0) = None
                            ∧ RefHash ref0 ≠ ZeroHash))
            ↔ (P ∨ sliceTo validCommit 8 = None
                   ∧ (∃ ref0, ref0 ∈ ref :: refs ∧ CommitObject r (RefHash ref0) = None
                              ∧ RefHash ref0 ≠ ZeroHash))) as Hskip.
  { intros P Hnot.
    split; (intros [?|(Hs & ref' & Hin & Hmiss)]; [by left|right]); (split; [done|]).
    - exists ref'. split; [by right|done].
    - apply elem_of_cons in Hin as [->|Hin]; [by destruct Hnot|]. by exists ref'. }
  destruct (CommitObject r (RefHash ref)) eqn:Hc.
  { apply Hskip. by intros [? _]. }
  unfold IsZero. destruct (String.eqb_spec (RefHash ref) ZeroHash) as [Hz|Hz]; simpl.
  { apply Hskip. by intros [_ ?]. }
  destruct (sliceTo validCommit 8) as [short|] eqn:Hs; simpl.
  - split; (intros [?|(? & _)]; done).
  - split; intros _; [right; split; [done|]; exists ref; split; [by left|done]|by left].
Qed.

(** X19. The dry-run analysis panics exactly when no commit hash of eight
    bytes or more was found by [findMostRecentValidCommit] (it returns the
    empty string with its error when no branch tip loads) and there is
    something to report for a reference: a reference on the null hash, which
    includes every symbolic reference such as the usual [HEAD], or a
    reference whose commit does not load. *)
Theorem AnalyzeAndPopulate_panics (r : Repository) (packedRefs : option string) :
  AnalyzeAndPopulate r packedRefs = None ↔
    (String.length (default "" (findMostRecentValidCommit r)) < 8)%nat
    ∧ ∃ ref, ref ∈ References r
             ∧ (RefHash ref = nullSHA ∨ CommitObject r (RefHash ref) = None).
Proof.
  unfold AnalyzeAndPopulate. cbv zeta.
  set (validCommit := default "" (findMostRecentValidCommit r)).
  assert (sliceTo validCommit 8 = None ↔ (String.length validCommit < 8)%nat) as Hslice.
  { unfold sliceTo. destruct (Nat.leb_spec 8 (String.length validCommit)).
    - split; [done|lia].
    - done. }
  destruct (foldl (analyzeNullRef validCommit) _ (References r)) as [c2|] eqn:E2; simpl.
  - assert (¬ (sliceTo validCommit 8 = None
               ∧ ∃ ref, ref ∈ References r ∧ RefHash ref = nullSHA)) as Hno2.
    { intros H. assert (Some c2 = None) as Habs; [|done].
      rewrite <- E2. apply analyzeNullRef_fold. by right. }
    destruct (foldl (analyzeMissing r validCommit) (Some c2) (References r))
      as [c3|] eqn:E3; simpl.
    + split; [done|]. intros [Hlen (ref & Hin & [Hz|Hmiss])].
      * destruct Hno2. split; [by apply Hslice|]. by exists ref.
      * assert (Some c3 = None) as Habs; [|done].
        rewrite <- E3. apply analyzeMissing_fold. right.
        split; [by apply Hslice|].
        destruct (decide (RefHash ref = ZeroHash)) as [Hz|Hz].
        -- destruct Hno2. split; [by apply Hslice|]. by exists ref.
        -- by exists ref.
    + split; [|done]. intros _.
      apply analyzeMissing_fold in E3 as [?|(Hs & ref & Hin & Hmiss & _)]; [done|].
      split; [by apply Hslice|]. exists ref. split; [done|by right].
  - split; [|done]. intros _.
    apply analyzeNullRef_fold in E2 as [?|(Hs & ref & Hin & Hz)]; [done|].
    split; [by apply Hslice|]. exists ref. split; [done|by left].
Qed.

(** A sound repository with the usual symbolic [HEAD]: the analysis lists
    [HEAD] as a reference on the null hash that would be repointed. *)
Example AnalyzeAndPopulate_symbolic_HEAD :
  AnalyzeAndPopulate Fixtures.tagged None
  = Some [mkDryRunChange "reference" "HEAD" nullSHA (Fixtures.h40 "a") "fix"
            "Will point to commit aaaaaaaa"].
Proof. vm_compute. reflexivity. Qed.

Example AnalyzeAndPopulate_hopeless : AnalyzeAndPopulate Fixtures.hopeless None = None.
Proof. vm_compute. reflexivity. Qed.

(** * From a flagged commit to the moved reference *)

Section FixPipeline.
Context {hasher : Hasher} {runtime : GoRuntime} {layout : TimeFormat}.


End FixPipeline.


(** * [FixNullSHAReferences] *)

Lemma fixHead_dry r : fixHead true r = (r, if headIsNull r then 1 else 0).
Proof. unfold fixHead. by destruct (headIsNull r). Qed.

Lemma fixHead_count r : ((fixHead false r).2 ≤ (fixHead true r).2)%nat.
Proof.
  unfold fixHead. destruct (headIsNull r); [|done].
  destruct (usable (findValidReference r)); simpl; lia.
Qed.





(** The dry run of the loop over the references. *)
Lemma fixNullLoop_dry l st :
  foldl (fixNullRef true) st l
  = (st.1, (st.2 + length (filter (λ ref, RefHash ref = nullSHA) l))%nat).
Proof.
  revert st. induction l as [|ref l IH]; intros [r n]; simpl.
  { by rewrite Nat.add_0_r. }
  rewrite IH, filter_cons. unfold fixNullRef. simpl.
  destruct (String.eqb_spec (RefHash ref) nullSHA) as [Hz|Hz].
  - rewrite decide_True by done. simpl. f_equal. lia.
  - by rewrite decide_False by done.
Qed.

Lemma fixNullRef_count st ref :
  ((fixNullRef false st ref).2 ≤ (fixNullRef true st ref).2)%nat
  ∧ (fixNullRef true st ref).2 = ((if String.eqb (RefHash ref) nullSHA then 1 else 0)
                                   + st.2)%nat.
Proof.
  unfold fixNullRef. destruct (String.eqb (RefHash ref) nullSHA); [|simpl; lia].
  destruct (IsBranch (RefName ref)); [|simpl; lia].
  destruct (usable (findMostRecentValidCommit st.1)); simpl; lia.
Qed.

Lemma fixNullLoop_count l rl rd nl nd :
  (nl ≤ nd)%nat →
  ((foldl (fixNullRef false) (rl, nl) l).2 ≤ (foldl (fixNullRef true) (rd, nd) l).2)%nat.
Proof.
  revert rl rd nl nd. induction l as [|ref l IH]; intros rl rd nl nd Hle; simpl; [done|].
  destruct (fixNullRef_count (rl, nl) ref) as [Hlive _].
  destruct (fixNullRef_count (rd, nd) ref) as [_ Hdry].
  destruct (fixNullRef_count (rl, nl) ref) as [_ Hdry'].
  destruct (fixNullRef false (rl, nl) ref) as [rl' nl'].
  destruct (fixNullRef true (rd, nd) ref) as [rd' nd'].
  apply IH. simpl in *. lia.
Qed.

(** A live run on references none of which is a branch on the null hash
    does nothing. *)
Lemma fixNullLoop_idle l st :
  (∀ ref, ref ∈ l → RefHash ref = nullSHA → IsBranch (RefName ref) = false) →
  foldl (fixNullRef false) st l = st.
Proof.
  revert st. induction l as [|ref l IH]; intros st Hl; simpl; [done|].
  rewrite IH by (intros ref' Hin; apply Hl; by right).
  unfold fixNullRef. destruct (String.eqb_spec (RefHash ref) nullSHA) as [Hz|]; [|done].
  by rewrite (Hl ref) by (by left || done).
Qed.

Lemma fixNullLoop_live_le l st :
  ((foldl (fixNullRef false) st l).2
   ≤ st.2 + length (filter (λ ref, RefHash ref = nullSHA
                                   ∧ IsBranch (RefName ref) = true) l))%nat.
Proof.
  revert st. induction l as [|ref l IH]; intros st; simpl; [lia|].
  etransitivity; [apply IH|]. rewrite filter_cons. unfold fixNullRef.
  destruct (String.eqb_spec (RefHash ref) nullSHA) as [Hz|Hz].
  2: { rewrite decide_False by (by intros [? _]). lia. }
  destruct (IsBranch (RefName ref)) eqn:Hb.
  2: { rewrite decide_False by (by intros [_ ?]). lia. }
  rewrite decide_True by done.
  destruct (usable (findMostRecentValidCommit st.1)); simpl; lia.
Qed.

Lemma filter_length_impl {A} (P Q : A → Prop) `{∀ x, Decision (P x)}
    `{∀ x, Decision (Q x)} (l : list A) :
  (∀ x, P x → Q x) → (length (filter P l) ≤ length (filter Q l))%nat.
Proof.
  intros Himp. induction l as [|x l IH]; [done|]. rewrite !filter_cons.
  destruct (decide (P x)) as [Hp|Hp].
  - rewrite decide_True by by apply Himp. simpl. lia.
  - destruct (decide (Q x)); simpl; lia.
Qed.

(** Setting [HEAD] adds no branch on the null hash. *)
Lemma nullBranches_fixHead r :
  (length (filter (λ ref, RefHash ref = nullSHA ∧ IsBranch (RefName ref) = true)
             (References (fixHead false r).1))
   ≤ length (filter (λ ref, RefHash ref = nullSHA) (References r)))%nat.
Proof.
  unfold fixHead.
  assert (length (filter (λ ref, RefHash ref = nullSHA ∧ IsBranch (RefName ref) = true)
                    (References r))
          ≤ length (filter (λ ref, RefHash ref = nullSHA) (References r)))%nat as Hsame
    by (apply filter_length_impl; by intros ? [? _]).
  destruct (headIsNull r); [|done].
  destruct (usable (findValidReference r)) as [validRef|]; [|done].
  unfold References, SetReference. simpl.
  rewrite <- insert_delete_eq.
  rewrite (map_to_list_insert (delete "HEAD" (refs r)))
    by apply lookup_delete_eq.
  rewrite fmap_cons, filter_cons.
  rewrite decide_False by (intros [_ Hb]; discriminate Hb).
  etransitivity; [apply filter_length_impl with (Q := λ ref, RefHash ref = nullSHA);
                  by intros ? [? _]|].
  destruct (refs r !! "HEAD") as [old|] eqn:Hold.
  - rewrite <- (map_to_list_delete (refs r) "HEAD" old Hold).
    rewrite fmap_cons, filter_cons. destruct (decide _); simpl; lia.
  - by rewrite delete_id.
Qed.

(** X21. The count of [FixNullSHAReferences].  A dry run changes nothing
    and counts one for a [HEAD] that fails its test, one for every reference
    whose hash reads as the null hash, symbolic references included, and one
    for every line of [packed-refs] that contains the null hash; a live run
    never counts more.  When [HEAD] passes its test and no branch is on the
    null hash, a live run leaves the references as they are and counts the
    lines of [packed-refs] only: on a sound repository with the usual
    symbolic [HEAD] the dry run announces a fix that a live run never
    makes. *)
Theorem FixNullSHAReferences_count (r : Repository) (packedRefs : option string) :
  let nullRefs := length (filter (λ ref, RefHash ref = nullSHA) (References r)) in
  let nullLines :=
    match packedRefs with
    | Some content =>
        length (filter (λ line, Strings.Contains line nullSHA = true)
                  (Strings.Split content "010"%char))
    | None => 0%nat
    end in
  FixNullSHAReferences r packedRefs true
    = (r, None, ((if headIsNull r then 1 else 0) + nullRefs + nullLines)%nat)
  ∧ ((FixNullSHAReferences r packedRefs false).2
      ≤ (FixNullSHAReferences r packedRefs true).2)%nat
  ∧ (headIsNull r = false →
     (∀ ref, ref ∈ References r → RefHash ref = nullSHA →
             IsBranch (RefName ref) = false) →
     (FixNullSHAReferences r packedRefs false).1.1 = r
     ∧ (FixNullSHAReferences r packedRefs false).2 = nullLines).
Proof.
  cbv zeta. unfold FixNullSHAReferences.
  split; [|split].
  - rewrite fixHead_dry, fixNullLoop_dry. simpl.
    destruct packedRefs as [content|]; [|by rewrite Nat.add_0_r].
    destruct (fixPackedRefs_modes content) as (-> & _). done.
  - rewrite fixHead_dry.
    pose proof (fixHead_count r) as Hh. rewrite fixHead_dry in Hh.
    destruct (fixHead false r) as [r1 n1] eqn:Er1. simpl in Hh.
    pose proof (fixNullLoop_count (References r1) r1 r n1
                  (if headIsNull r then 1 else 0)%nat Hh) as Hloop.
    rewrite (fixNullLoop_dry (References r)).
    rewrite (fixNullLoop_dry (References r1)) in Hloop. simpl in *.
    assert ((foldl (fixNullRef false) (r1, n1) (References r1)).2
            ≤ (if headIsNull r then 1 else 0)
              + length (filter (λ ref, RefHash ref = nullSHA) (References r)))%nat
      as Hle.
    { etransitivity; [apply fixNullLoop_live_le|]. simpl.
      pose proof (nullBranches_fixHead r) as Hnb. rewrite Er1 in Hnb. simpl in Hnb.
      lia. }
    clear Hloop.
    destruct (foldl (fixNullRef false) (r1, n1) (References r1)) as [r2 n2].
    destruct packedRefs as [content|]; [|done].
    destruct (fixPackedRefs_modes content) as (-> & Hlive & _).
    destruct (fixPackedRefs false content) as [w n3]. simpl in *. lia.
  - intros Hhead Hidle. unfold fixHead. rewrite Hhead.
    rewrite fixNullLoop_idle by done.
    destruct packedRefs as [content|]; [|done].
    destruct (fixPackedRefs_modes content) as (_ & Hlive & _).
    destruct (fixPackedRefs false content) as [w n3]. done.
Qed.

Example FixNullSHAReferences_sound_repo :
  (FixNullSHAReferences Fixtures.tagged None true).2 = 1
  ∧ (FixNullSHAReferences Fixtures.tagged None false).2 = 0.
Proof. split; vm_compute; reflexivity. Qed.

(** ** The live run *)








(** * The tree scan on a well-formed listing *)

Lemma append_cons x (a b : string) : (String x a ++ b)%string = String x (a ++ b).
Proof. reflexivity. Qed.




Lemma length_append (a b : string) :
  String.length (a ++ b) = (String.length a + String.length b)%nat.
Proof. induction a as [|x a IH]; [done|]. rewrite append_cons. simpl. by rewrite IH. Qed.

(** ** [strings.Contains] across a separator *)







(** ** One listed line *)







(** ** The whole listing *)








